(** * The Hybrid Support Bot: chunking, indexing and retrieval pipeline

    A shallow embedding of [src/pdf_parser.py], [src/vector_store.py],
    [src/llm_interface.py] and [src/query_system.py], and the properties
    of the pipeline stated over it.

    Conventions of the embedding.
    - A Python [str] is a [text], a list of characters.  A character is a
      code point below 256 (Rocq's [ascii]); Python's Unicode predicates
      ([str.isspace], [str.lower], the classes of [re]) are written out on
      that range.
    - The external collaborators (embedding model, vector index search,
      wall clock, generation service) are parameters of the development.
    - Console output ([print]) is not part of the model. *)

From Stdlib Require Import Ascii String NArith ZArith Lia.
From Stdlib Require Import DecimalString DecimalNat.
From stdpp Require Import gmap strings list sorting.

Set Default Proof Using "Type".

(** ** Python strings *)

Definition text := list ascii.

(** A string literal of the source. *)
Definition str (s : string) : text := list_ascii_of_string s.

Definition ord (c : ascii) : N := N_of_ascii c.
Definition chr (n : N) : ascii := ascii_of_N n.

Definition in_range (lo hi : ascii) (c : ascii) : bool :=
  ((ord lo <=? ord c) && (ord c <=? ord hi))%N.

Definition is_char (x : ascii) (c : ascii) : bool := (ord x =? ord c)%N.

Definition is_newline : ascii -> bool := is_char "010".

(** [str.isspace] on one character, which is also the class [\s] of [re]
    on a [str] pattern: TAB..CR, FS..US, SPACE, NEL and NBSP. *)
Definition isspace (c : ascii) : bool :=
  (((9 <=? ord c) && (ord c <=? 13)) || ((28 <=? ord c) && (ord c <=? 32))
   || (ord c =? 133) || (ord c =? 160))%N.

(** The class [\d]: the only decimal digits below 256 are 0..9. *)
Definition isdigit : ascii -> bool := in_range "0" "9".

(** [str.lower] on one character. *)
Definition lower_char (c : ascii) : ascii :=
  if (in_range "A" "Z" c
      || ((192 <=? ord c) && (ord c <=? 222) && negb (ord c =? 215)))%N
  then chr (ord c + 32) else c.

(** [str.upper] on one character; the three lower-case letters below 256
    whose upper case lies above 255 (or is two letters) are left alone. *)
Definition upper_char (c : ascii) : ascii :=
  if (in_range "a" "z" c
      || ((224 <=? ord c) && (ord c <=? 254) && negb (ord c =? 247)))%N
  then chr (ord c - 32) else c.

Definition lower (s : text) : text := map lower_char s.

Definition is_cased (c : ascii) : bool :=
  negb (is_char (lower_char c) c) || negb (is_char (upper_char c) c).

(** [str.title]: a cased character is upper-cased when it follows an
    uncased one (or starts the string) and lower-cased otherwise.  The
    source applies it to phrases of ASCII letters and spaces. *)
Fixpoint title_from (previous_is_cased : bool) (s : text) : text :=
  match s with
  | [] => []
  | c :: s' =>
      (if previous_is_cased then lower_char c else upper_char c)
        :: title_from (is_cased c) s'
  end.

Definition title : text -> text := title_from false.

Fixpoint lstrip (s : text) : text :=
  match s with
  | [] => []
  | c :: s' => if isspace c then lstrip s' else s
  end.

Definition rstrip (s : text) : text := reverse (lstrip (reverse s)).

(** [str.strip()] *)
Definition strip (s : text) : text := rstrip (lstrip s).

(** Truth value of a [str]: the empty string is false. *)
Definition truthy (s : text) : bool :=
  match s with [] => false | _ :: _ => true end.

(** [str.split()] without argument: the maximal runs of non-blank
    characters.  [cur] is the run being read, last character first. *)
Fixpoint split_acc (cur : text) (s : text) : list text :=
  match s with
  | [] => match cur with [] => [] | _ :: _ => [reverse cur] end
  | c :: s' =>
      if isspace c
      then match cur with
           | [] => split_acc [] s'
           | _ :: _ => reverse cur :: split_acc [] s'
           end
      else split_acc (c :: cur) s'
  end.

Definition split_ws : text -> list text := split_acc [].

(** [sep.join(parts)] *)
Fixpoint join (sep : text) (parts : list text) : text :=
  match parts with
  | [] => []
  | [p] => p
  | p :: ps => p ++ sep ++ join sep ps
  end.

(** [s.split(sep)] for a one-character separator. *)
Fixpoint split_on (sep : ascii) (cur : text) (s : text) : list text :=
  match s with
  | [] => [reverse cur]
  | c :: s' =>
      if is_char sep c then reverse cur :: split_on sep [] s'
      else split_on sep (c :: cur) s'
  end.

Definition split_lines (s : text) : list text := split_on "010" [] s.

(** [l[-n:]] *)
Definition last_n {A} (n : nat) (l : list A) : list A :=
  drop (length l - n) l.

(** [l[i:j]] for [0 <= i] and [0 <= j] *)
Definition slice {A} (i j : nat) (l : list A) : list A :=
  take (j - i) (drop i l).

Fixpoint starts_with (p s : text) : bool :=
  match p, s with
  | [], _ => true
  | _ :: _, [] => false
  | x :: p', y :: s' => is_char x y && starts_with p' s'
  end.

(** [p in s] on strings *)
Fixpoint contains (p s : text) : bool :=
  starts_with p s
  || match s with [] => false | _ :: s' => contains p s' end.

Definition text_eqb (a b : text) : bool := bool_decide (a = b).

(** Comparison of [str] values, as [sorted] uses it: lexicographic on
    code points. *)
Fixpoint text_leb (a b : text) : bool :=
  match a, b with
  | [], _ => true
  | _ :: _, [] => false
  | x :: a', y :: b' =>
      if (ord x <? ord y)%N then true
      else if (ord x =? ord y)%N then text_leb a' b' else false
  end.

Definition text_le (a b : text) : Prop := text_leb a b = true.

Global Instance text_le_dec : RelDecision text_le.
Proof. intros a b. unfold text_le. apply _. Defined.

(** [sorted(l)] on a list of strings *)
Definition sorted (l : list text) : list text := merge_sort text_le l.

(** [str(n)] for a natural number *)
Definition decimal (n : nat) : text :=
  list_ascii_of_string (NilEmpty.string_of_uint (Nat.to_uint n)).

(** ** Regular expressions

    The fragment of Python's [re] that the sources use, with its
    backtracking semantics: the alternatives are tried in the order of the
    pattern and every repetition is greedy. *)

Inductive regex : Type :=
| Eps
| Chr (p : ascii -> bool)        (* one character of a class *)
| Seq (r1 r2 : regex)
| Alt (r1 r2 : regex)
| Rep (lo : nat) (hi : option nat) (r : regex)   (* r{lo,hi}, greedy *)
| Group (r : regex)              (* the capturing group 1 *)
| Bol                            (* ^ under re.MULTILINE *)
| Eol                            (* $ under re.MULTILINE *)
| Behind (p : ascii -> bool).    (* (?<=[...]) on one character *)

(** The state of a match attempt: the text already passed (last character
    first), the text still ahead, and the contents of group 1. *)
Record mstate : Type := MState {
  passed : text;
  ahead : text;
  group1 : option text
}.

Definition more_allowed (n : nat) (hi : option nat) : bool :=
  match hi with None => true | Some h => n <? h end.

Fixpoint rmatch (r : regex) (st : mstate)
    (k : mstate -> option mstate) : option mstate :=
  match r with
  | Eps => k st
  | Chr p =>
      match ahead st with
      | c :: s' =>
          if p c then k (MState (c :: passed st) s' (group1 st)) else None
      | [] => None
      end
  | Seq r1 r2 => rmatch r1 st (fun st' => rmatch r2 st' k)
  | Alt r1 r2 =>
      match rmatch r1 st k with
      | Some res => Some res
      | None => rmatch r2 st k
      end
  | Rep lo hi r' =>
      (fix iterate (fuel n : nat) (st : mstate) {struct fuel} :=
         let stop := if lo <=? n then k st else None in
         match fuel with
         | 0 => stop
         | S fuel' =>
             if more_allowed n hi then
               match rmatch r' st (fun st' =>
                        if length (ahead st') <? length (ahead st)
                        then iterate fuel' (S n) st' else None) with
               | Some res => Some res
               | None => stop
               end
             else stop
         end) (length (ahead st)) 0 st
  | Group r' =>
      rmatch r' st (fun st' =>
        k (MState (passed st') (ahead st')
             (Some (take (length (ahead st) - length (ahead st'))
                      (ahead st)))))
  | Bol =>
      match passed st with
      | [] => k st
      | c :: _ => if is_newline c then k st else None
      end
  | Eol =>
      match ahead st with
      | [] => k st
      | c :: _ => if is_newline c then k st else None
      end
  | Behind p =>
      match passed st with
      | c :: _ => if p c then k st else None
      | [] => None
      end
  end.

(** [re.match(r, s)]: a match that starts at the first character. *)
Definition re_match (r : regex) (s : text) : option mstate :=
  rmatch r (MState [] s None) Some.

(** [re.search(r, s)]: the leftmost match. *)
Fixpoint search_from (r : regex) (before after : text) : option mstate :=
  match rmatch r (MState before after None) Some with
  | Some res => Some res
  | None =>
      match after with
      | [] => None
      | c :: s' => search_from r (c :: before) s'
      end
  end.

Definition re_search (r : regex) (s : text) : option mstate :=
  search_from r [] s.

(** [match.group(1)] *)
Definition group (m : mstate) : text := default [] (group1 m).

(** [re.sub(r, repl, s)] for a pattern that matches no empty string:
    [skip] counts the characters of the current match still to pass. *)
Fixpoint sub_scan (r : regex) (repl : text) (skip : nat)
    (before after : text) : text :=
  match after with
  | [] => []
  | c :: s' =>
      match skip with
      | S n => sub_scan r repl n (c :: before) s'
      | 0 =>
          match rmatch r (MState before after None) Some with
          | Some res =>
              match length after - length (ahead res) with
              | 0 => c :: sub_scan r repl 0 (c :: before) s'
              | S n => repl ++ sub_scan r repl n (c :: before) s'
              end
          | None => c :: sub_scan r repl 0 (c :: before) s'
          end
      end
  end.

Definition re_sub (r : regex) (repl s : text) : text :=
  sub_scan r repl 0 [] s.

(** [re.split(r, s)] for a pattern that matches no empty string and has
    no group: [piece] is the piece being read, last character first. *)
Fixpoint split_scan (r : regex) (skip : nat)
    (before after piece : text) : list text :=
  match after with
  | [] => [reverse piece]
  | c :: s' =>
      match skip with
      | S n => split_scan r n (c :: before) s' piece
      | 0 =>
          match rmatch r (MState before after None) Some with
          | Some res =>
              match length after - length (ahead res) with
              | 0 => split_scan r 0 (c :: before) s' (c :: piece)
              | S n => reverse piece :: split_scan r n (c :: before) s' []
              end
          | None => split_scan r 0 (c :: before) s' (c :: piece)
          end
      end
  end.

Definition re_split (r : regex) (s : text) : list text :=
  split_scan r 0 [] s [].

(** Pattern syntax. *)
Definition seq_of (rs : list regex) : regex := foldr Seq Eps rs.
Definition lit (s : string) : regex := seq_of (map (fun x => Chr (is_char x)) (str s)).
Definition plus (r : regex) : regex := Rep 1 None r.
Definition star (r : regex) : regex := Rep 0 None r.
Definition opt (r : regex) : regex := Rep 0 (Some 1) r.
Definition any_of (ps : list (ascii -> bool)) : ascii -> bool :=
  fun c => existsb (fun p => p c) ps.
Definition dot : regex := Chr (fun c => negb (is_newline c)).

(** A class or a literal under [re.IGNORECASE]. *)
Definition icase (p : ascii -> bool) : ascii -> bool :=
  fun c => p c || p (lower_char c) || p (upper_char c).
Definition lit_i (s : string) : regex :=
  seq_of (map (fun x => Chr (icase (is_char x))) (str s)).

(** [\s+], of [re.sub(r'\s+', ' ', ...)] *)
Definition blanks : regex := plus (Chr isspace).

(** ** pdf_parser.py *)

(** The metadata dictionary of a chunk.  The parser fills the three
    keys; the readers use [.get] with a default, so a key may be absent. *)
Record Metadata : Type := Meta {
  source : option text;
  chapter : option text;
  page : option Z
}.

(** [DocumentChunk]; [chunk_text] is its field [text]. *)
Record DocumentChunk : Type := Chunk {
  chunk_text : text;
  metadata : Metadata
}.

(** The heading patterns of [_detect_chapter], in the order of the
    source list. *)
Definition numbered_heading (keyword : string) : regex :=
  seq_of [Bol; lit keyword; plus (Chr isspace); plus (Chr isdigit);
          plus (Chr (any_of [is_char ":"; is_char "."; isspace]));
          Group (plus dot); Eol].

(** [^Chapter\s+\d+[:\.\s]+(.+)$] *)
Definition chapter_pattern : regex := numbered_heading "Chapter".

(** [^([A-Z][A-Z\s]{3,50})$], the headers in capitals *)
Definition capitals_pattern : regex :=
  seq_of [Bol;
          Group (Seq (Chr (in_range "A" "Z"))
                   (Rep 3 (Some 50)
                      (Chr (any_of [in_range "A" "Z"; isspace]))));
          Eol].

Definition patterns : list regex :=
  [ chapter_pattern;
    numbered_heading "CHAPTER";      (* ^CHAPTER\s+\d+[:\.\s]+(.+)$ *)
    numbered_heading "Section";      (* ^Section\s+\d+[:\.\s]+(.+)$ *)
    numbered_heading "SECTION";      (* ^SECTION\s+\d+[:\.\s]+(.+)$ *)
    (* ^\d+\.\s+([A-Z][A-Za-z\s]{3,50})$ *)
    seq_of [Bol; plus (Chr isdigit); Chr (is_char "."); plus (Chr isspace);
            Group (Seq (Chr (in_range "A" "Z"))
                     (Rep 3 (Some 50)
                        (Chr (any_of [in_range "A" "Z"; in_range "a" "z";
                                      isspace]))));
            Eol];
    capitals_pattern ].

(** The inner loop of [_detect_chapter]: the first pattern that matches
    the line gives the chapter name. *)
Fixpoint first_pattern (ps : list regex) (line : text) : option text :=
  match ps with
  | [] => None
  | pattern :: ps' =>
      match re_match pattern line with
      | Some m =>
          let chapter_name := strip (group m) in
          Some (re_sub blanks (str " ") chapter_name)
      | None => first_pattern ps' line
      end
  end.

(** One turn of the outer loop: [None] stands for falling through to the
    next line. *)
Definition heading_of_line (line : text) : option text :=
  let line := strip line in
  if (100 <? length line) || (length line <? 3) then None
  else first_pattern patterns line.

Fixpoint first_heading (lines : list text) : option text :=
  match lines with
  | [] => None
  | line :: rest =>
      match heading_of_line line with
      | Some chapter_name => Some chapter_name
      | None => first_heading rest
      end
  end.

Definition _detect_chapter (t : text) : option text :=
  let lines := split_lines t in
  first_heading (take 5 lines).

(** [(?<=[.!?])\s+] *)
Definition sentence_end : regex :=
  Seq (Behind (any_of [is_char "."; is_char "!"; is_char "?"])) blanks.

(** The loop of [_split_text] over the sentences still to read. *)
Fixpoint split_loop (chunk_size : nat) (sentences : list text)
    (chunks : list text) (current_chunk : text) : list text * text :=
  match sentences with
  | [] => (chunks, current_chunk)
  | sentence :: rest =>
      if (chunk_size <? length current_chunk + length sentence)
         && truthy current_chunk
      then
        let chunks := chunks ++ [strip current_chunk] in
        let words := split_ws current_chunk in
        let overlap_text :=
          if 20 <? length words then join (str " ") (last_n 20 words)
          else [] in
        split_loop chunk_size rest chunks
          (overlap_text ++ str " " ++ sentence)
      else
        split_loop chunk_size rest chunks
          (current_chunk ++ str " " ++ sentence)
  end.

(** [overlap] is a parameter of the source function that its body does
    not read. *)
Definition _split_text (t : text) (chunk_size overlap : nat) : list text :=
  let t := strip (re_sub blanks (str " ") t) in
  let sentences := re_split sentence_end t in
  let '(chunks, current_chunk) := split_loop chunk_size sentences [] [] in
  if truthy (strip current_chunk) then chunks ++ [strip current_chunk]
  else chunks.

(** The chunks of one page. *)
Definition page_documents (pdf_path current_chapter : text) (page_num : Z)
    (page_chunks : list text) : list DocumentChunk :=
  map (fun chunk =>
         Chunk chunk (Meta (Some pdf_path) (Some current_chapter)
                        (Some page_num)))
      (filter (fun chunk => 100 < length (strip chunk)) page_chunks).

(** The page loop of [extract_chunks_with_metadata].  A page is the
    result of [page.extract_text()], which may be [None]. *)
Fixpoint extract_pages (pdf_path : text) (pages : list (option text))
    (page_num : Z) (current_chapter : text) (chunks : list DocumentChunk)
    : list DocumentChunk :=
  match pages with
  | [] => chunks
  | p :: rest =>
      match p with
      | None => extract_pages pdf_path rest (page_num + 1) current_chapter chunks
      | Some t =>
          if negb (truthy t) || (length (strip t) <? 50)
          then extract_pages pdf_path rest (page_num + 1) current_chapter chunks
          else
            let detected_chapter := _detect_chapter t in
            let current_chapter :=
              match detected_chapter with
              | Some name => if truthy name then name else current_chapter
              | None => current_chapter
              end in
            let page_chunks := _split_text t 800 100 in
            extract_pages pdf_path rest (page_num + 1) current_chapter
              (chunks ++ page_documents pdf_path current_chapter page_num
                           page_chunks)
      end
  end.

Definition extract_chunks_with_metadata (pdf_path : text)
    (pages : list (option text)) : list DocumentChunk :=
  extract_pages pdf_path pages 1 (str "Introduction") [].

(** ** The external collaborators and the state of a run *)

Record Message : Type := Msg { role : text; content : text }.

(** A request to [chat.completions.create].  The decoding parameters
    (temperature 0.3, at most 500 tokens, top-p 0.9) are the same in every
    request and belong to the service. *)
Record Request : Type := Req { model : text; messages : list Message }.

(** What the generation service does with a request: it answers, or it
    raises an exception [e], recorded by [str(e)]. *)
Inductive Reply : Type :=
| Completion (message_content : text)
| Failure (error : text).

Record QueryResult (Embedding Float : Type) : Type := QResult {
  documents : list text;
  metadatas : list Metadata;
  distances : list Float
}.
Arguments QResult {Embedding Float}.
Arguments documents {Embedding Float}.
Arguments metadatas {Embedding Float}.
Arguments distances {Embedding Float}.

(** The collaborators of the pipeline.
    - [Float] with its literal 0.0 and its arithmetic;
    - [encode_text], the embedding model on one text;
    - [index_query], [collection.query] of the vector index on the stored
      records, a query vector, [n_results] and the [where] filter;
    - [time_time n], the [n]-th reading of the wall clock;
    - [completions_create n], the reply of the generation service to its
      [n]-th request.
    The embedding model and the index are taken as answering: the calls
    to them in [add_documents] and [search] stand under no handler, and a
    run in which one of them raises is not described here. *)
Record Capabilities : Type := {
  Embedding : Type;
  Float : Type;
  float_zero : Float;
  float_sub : Float -> Float -> Float;
  float_add : Float -> Float -> Float;
  encode_text : text -> Embedding;
  index_query :
    gmap text (Embedding * text * Metadata) -> Embedding -> nat ->
    option text -> QueryResult Embedding Float;
  time_time : nat -> Float;
  completions_create : nat -> Request -> Reply
}.

(** The state of a run: the collection of the vector index (a record per
    id), the batches given to the embedding model so far, the number of
    clock readings, and the requests sent to the generation service. *)
Record World (cap : Capabilities) : Type := MkWorld {
  collection : gmap text (Embedding cap * text * Metadata);
  encoded : list (list text);
  ticks : nat;
  requests : list Request
}.
Arguments MkWorld {cap}.
Arguments collection {cap}.
Arguments encoded {cap}.
Arguments ticks {cap}.
Arguments requests {cap}.

(** A call returns a value or raises. *)
Inductive outcome (A : Type) : Type :=
| Returned (a : A)
| Raised (e : text).
Arguments Returned {A}.
Arguments Raised {A}.

Definition M (cap : Capabilities) (A : Type) : Type :=
  World cap -> outcome A * World cap.

Definition ret {cap A} (a : A) : M cap A := fun w => (Returned a, w).

Definition bind {cap A B} (c : M cap A) (f : A -> M cap B) : M cap B :=
  fun w =>
    match c w with
    | (Returned a, w') => f a w'
    | (Raised e, w') => (Raised e, w')
    end.

Definition raise {cap A} (e : text) : M cap A := fun w => (Raised e, w).

(** [try: body except Exception as e: handler(str(e))] *)
Definition try_except {cap A} (body : M cap A) (handler : text -> M cap A)
    : M cap A :=
  fun w =>
    match body w with
    | (Returned a, w') => (Returned a, w')
    | (Raised e, w') => handler e w'
    end.

Notation "x <- c1 ;; c2" := (bind c1 (fun x => c2))
  (at level 100, c1 at next level, right associativity).

Fixpoint for_each {cap A} (l : list A) (body : A -> M cap unit) : M cap unit :=
  match l with
  | [] => ret tt
  | x :: l' => _ <- body x ;; for_each l' body
  end.

(** [range(start, stop, step)] for a positive step *)
Definition range (start stop step : nat) : list nat :=
  map (fun k => start + k * step) (seq 0 ((stop - start + (step - 1)) / step)).

(** ** vector_store.py *)

Record Stats : Type := MkStats {
  total_chunks : nat;
  unique_chapters : nat;
  chapters : list text
}.

Record SearchResults (Float : Type) : Type := MkSearch {
  s_documents : list text;
  s_metadatas : list Metadata;
  s_distances : list Float;
  retrieval_time : Float
}.
Arguments MkSearch {Float}.
Arguments s_documents {Float}.
Arguments s_metadatas {Float}.
Arguments s_distances {Float}.
Arguments retrieval_time {Float}.

(** [f"chunk_{i}"] *)
Definition chunk_id (i : nat) : text := str "chunk_" ++ decimal i.

(** [meta.get('chapter', 'Unknown')] *)
Definition get_chapter (meta : Metadata) : text :=
  default (str "Unknown") (chapter meta).

(** [str(z)] for an integer *)
Definition decimal_Z (z : Z) : text :=
  list_ascii_of_string (NilEmpty.string_of_int (Z.to_int z)).

(** [meta.get('page', 'Unknown')], as an f-string prints it *)
Definition get_page (meta : Metadata) : text :=
  match page meta with
  | Some z => decimal_Z z
  | None => str "Unknown"
  end.

Section VectorStore.
Context {cap : Capabilities}.

(** [time.time()] *)
Definition now : M cap (Float cap) :=
  fun w =>
    (Returned (time_time cap (ticks w)),
     MkWorld (collection w) (encoded w) (S (ticks w)) (requests w)).

(** [self.embedding_model.encode(texts)] *)
Definition encode (texts : list text) : M cap (list (Embedding cap)) :=
  fun w =>
    (Returned (map (encode_text cap) texts),
     MkWorld (collection w) (encoded w ++ [texts]) (ticks w) (requests w)).

(** Modelled from the spec: the vector index, whose code is not part of
    the repository.  A collection is a finite map from ids to records
    (vector, text, metadata).  Writing a record under an id that is
    already there replaces the record; [count()] is the number of records
    and the scan of the metadata reads every record once. *)
Definition put
    (c : gmap text (Embedding cap * text * Metadata))
    (r : text * (Embedding cap * text * Metadata))
    : gmap text (Embedding cap * text * Metadata) :=
  <[r.1 := r.2]> c.

(** [self.collection.add(embeddings=..., documents=..., metadatas=...,
    ids=...)]: the four lists are read in step. *)
Definition collection_add (embeddings : list (Embedding cap))
    (docs : list text) (metas : list Metadata) (ids : list text)
    : M cap unit :=
  fun w =>
    (Returned tt,
     MkWorld
       (foldl put (collection w) (zip ids (zip (zip embeddings docs) metas)))
       (encoded w) (ticks w) (requests w)).

Definition add_documents (chunks : list DocumentChunk) : M cap unit :=
  match chunks with
  | [] => ret tt
  | _ :: _ =>
      let texts := map chunk_text chunks in
      let metadatas := map metadata chunks in
      let ids := map chunk_id (seq 0 (length chunks)) in
      start_time <- now ;;
      embeddings <- encode texts ;;
      end_time <- now ;;
      let embedding_time := float_sub cap end_time start_time in
      let batch_size := 100 in
      for_each (range 0 (length chunks) batch_size) (fun i =>
        let end_idx := min (i + batch_size) (length chunks) in
        collection_add (slice i end_idx embeddings)
          (slice i end_idx texts) (slice i end_idx metadatas)
          (slice i end_idx ids))
  end.

Definition search (query : text) (chapter_filter : option text)
    (top_k : nat) : M cap (SearchResults (Float cap)) :=
  start_time <- now ;;
  query_embeddings <- encode [query] ;;
  match query_embeddings with
  | [] => raise (str "list index out of range")
  | query_embedding :: _ =>
      let where_filter :=
        match chapter_filter with
        | Some c => if truthy c then Some c else None
        | None => None
        end in
      results <- (fun w =>
        (Returned (index_query cap (collection w) query_embedding top_k
                     where_filter), w)) ;;
      end_time <- now ;;
      let retrieval_time := float_sub cap end_time start_time in
      match documents results with
      | [] => ret (MkSearch [] [] [] retrieval_time)
      | _ :: _ =>
          ret (MkSearch (documents results) (metadatas results)
                 (distances results) retrieval_time)
      end
  end.

(** The body of [get_collection_stats], on the collection that
    [collection.count()] and [collection.get()] read. *)
Definition collection_stats
    (records : gmap text (Embedding cap * text * Metadata)) : Stats :=
  let count := size records in
  let all_metadatas := map (fun r => r.2.2) (map_to_list records) in
  let chapters : gset text :=
    match all_metadatas with
    | [] => ∅
    | _ :: _ => list_to_set (map get_chapter all_metadatas)
    end in
  MkStats count (size chapters) (sorted (elements chapters)).

Definition get_collection_stats : M cap Stats :=
  fun w => (Returned (collection_stats (collection w)), w).
End VectorStore.

(** ** llm_interface.py *)

Record Answer (Float : Type) : Type := MkAnswer {
  answer : text;
  generation_time : Float;
  context_used : list text;
  answer_model : text
}.
Arguments MkAnswer {Float}.
Arguments answer {Float}.
Arguments generation_time {Float}.
Arguments context_used {Float}.
Arguments answer_model {Float}.

Definition nl : text := [chr 10].
Definition dquote : text := [chr 34].

(** The answer of [generate_answer] when there is no context. *)
Definition no_context_answer : text :=
  str "I don't have enough information to answer that question. The retrieved context doesn't contain relevant information.".

Definition system_prompt : text :=
  join nl
    [ str "You are a helpful technical support assistant. Your job is to answer questions about a technical manual based ONLY on the provided context.";
      [];
      str "IMPORTANT RULES:";
      str "1. Answer ONLY based on the context provided";
      str "2. If the context doesn't contain the answer, say " ++ dquote
        ++ str "I don't have enough information in the manual to answer that question."
        ++ dquote;
      str "3. DO NOT make up information or use knowledge outside the provided context";
      str "4. Be concise and specific";
      str "5. Reference the chapter or section when relevant";
      str "6. If multiple sources are provided, synthesize the information clearly" ].

(** The loop of [_build_context] over [enumerate(zip(chunks, metadatas), 1)] *)
Fixpoint formatted_contexts (i : nat) (chunks : list text)
    (metas : list Metadata) : list text :=
  match chunks, metas with
  | chunk :: chunks', meta :: metas' =>
      (str "[Source " ++ decimal i ++ str " - Chapter: " ++ get_chapter meta
         ++ str ", Page: " ++ get_page meta ++ str "]" ++ nl ++ chunk)
        :: formatted_contexts (S i) chunks' metas'
  | _, _ => []
  end.

Definition _build_context (chunks : list text) (metas : list Metadata) : text :=
  join (nl ++ nl ++ str "---" ++ nl ++ nl) (formatted_contexts 1 chunks metas).

Definition user_prompt (context query : text) : text :=
  str "CONTEXT FROM MANUAL:" ++ nl ++ context ++ nl ++ nl
    ++ str "USER QUESTION: " ++ query ++ nl ++ nl
    ++ str "Please answer based only on the context above.".

Section LLMInterface.
Context {cap : Capabilities}.

(** [self.client.chat.completions.create(...)] followed by reading
    [response.choices[0].message.content] *)
Definition chat_completions_create (request : Request) : M cap text :=
  fun w =>
    let w' := MkWorld (collection w) (encoded w) (ticks w)
                (requests w ++ [request]) in
    match completions_create cap (length (requests w)) request with
    | Completion message_content => (Returned message_content, w')
    | Failure e => (Raised e, w')
    end.

Definition generate_answer (model_name : text) (query : text)
    (context_chunks : list text) (metas : list Metadata)
    : M cap (Answer (Float cap)) :=
  start_time <- now ;;
  match context_chunks with
  | [] =>
      ret (MkAnswer no_context_answer (float_zero cap) [] model_name)
  | _ :: _ =>
      let context := _build_context context_chunks metas in
      let messages :=
        [ Msg (str "system") system_prompt;
          Msg (str "user") (user_prompt context query) ] in
      answer <-
        try_except
          (message_content <-
             chat_completions_create (Req model_name messages) ;;
           ret (strip message_content))
          (fun e => ret (str "Error generating answer: " ++ e)) ;;
      end_time <- now ;;
      let generation_time := float_sub cap end_time start_time in
      ret (MkAnswer answer generation_time context_chunks model_name)
  end.
End LLMInterface.

(** ** query_system.py *)

Record QueryAnswer (Float : Type) : Type := MkQueryAnswer {
  qa_query : text;
  qa_answer : text;
  qa_retrieval_time : Float;
  qa_generation_time : Float;
  qa_total_time : Float;
  qa_sources : list Metadata;
  qa_chapter_filter : option text
}.
Arguments MkQueryAnswer {Float}.
Arguments qa_query {Float}.
Arguments qa_answer {Float}.
Arguments qa_retrieval_time {Float}.
Arguments qa_generation_time {Float}.
Arguments qa_total_time {Float}.
Arguments qa_sources {Float}.
Arguments qa_chapter_filter {Float}.

(** [[A-Z][a-z]+(?: [A-Z][a-z]+)*] under [re.IGNORECASE] *)
Definition capitalized_phrase : regex :=
  let capitalized :=
    Seq (Chr (icase (in_range "A" "Z")))
        (plus (Chr (icase (in_range "a" "z")))) in
  Seq capitalized (star (Seq (lit_i " ") capitalized)).

(** The two patterns of [_extract_chapter_mention], under
    [re.IGNORECASE]. *)
Definition mention_patterns : list regex :=
  [ (* in (?:the )?(<phrase>) (?:chapter|section) *)
    seq_of [lit_i "in "; opt (lit_i "the "); Group capitalized_phrase;
            lit_i " "; Alt (lit_i "chapter") (lit_i "section")];
    (* (?:chapter|section) (?:on |about )?(<phrase>) *)
    seq_of [Alt (lit_i "chapter") (lit_i "section"); lit_i " ";
            opt (Alt (lit_i "on ") (lit_i "about "));
            Group capitalized_phrase] ].

(** The first loop of [_extract_chapter_mention]: the first chapter whose
    lower-cased name occurs in the lower-cased query. *)
Fixpoint mentioned_chapter (available_chapters : list text)
    (query_lower : text) : option text :=
  match available_chapters with
  | [] => None
  | chapter :: rest =>
      if contains (lower chapter) query_lower then Some chapter
      else mentioned_chapter rest query_lower
  end.

(** The loop under a pattern match: the first chapter equal to the
    captured phrase up to case. *)
Fixpoint same_chapter (available_chapters : list text)
    (potential_chapter : text) : option text :=
  match available_chapters with
  | [] => None
  | chapter :: rest =>
      if text_eqb (lower chapter) (lower potential_chapter) then Some chapter
      else same_chapter rest potential_chapter
  end.

(** The second loop, over the patterns. *)
Fixpoint pattern_chapter (ps : list regex) (query : text)
    (available_chapters : list text) : option text :=
  match ps with
  | [] => None
  | pattern :: ps' =>
      match re_search pattern query with
      | Some m =>
          let potential_chapter := title (strip (group m)) in
          match same_chapter available_chapters potential_chapter with
          | Some chapter => Some chapter
          | None => pattern_chapter ps' query available_chapters
          end
      | None => pattern_chapter ps' query available_chapters
      end
  end.

(** The model name that [QuerySystem] leaves to its default. *)
Definition default_model : text := str "llama-3.1-8b-instant".

Section QuerySystem.
Context {cap : Capabilities}.

Definition _extract_chapter_mention (query : text) : M cap (option text) :=
  let query_lower := lower query in
  stats <- get_collection_stats ;;
  let available_chapters := chapters stats in
  match mentioned_chapter available_chapters query_lower with
  | Some chapter => ret (Some chapter)
  | None => ret (pattern_chapter mention_patterns query available_chapters)
  end.

Definition answer_question (query : text)
    : M cap (QueryAnswer (Float cap)) :=
  chapter_filter <- _extract_chapter_mention query ;;
  search_results <- search query chapter_filter 3 ;;
  llm_response <-
    generate_answer default_model query (s_documents search_results)
      (s_metadatas search_results) ;;
  let total_time :=
    float_add cap (retrieval_time search_results)
      (generation_time llm_response) in
  ret (MkQueryAnswer query (answer llm_response)
         (retrieval_time search_results) (generation_time llm_response)
         total_time (s_metadatas search_results) chapter_filter).
End QuerySystem.

(** ** Sample inputs *)

(** 400 characters of prose, for a first page. *)
Definition prose_intro : text :=
  str "This manual describes the device and the way it is meant to "
    ++ str "be used. Read every section with care before the first start"
    ++ str ". Keep the manual close to the device so that each operator "
    ++ str "can consult it. The maker accepts no liability for damage ca"
    ++ str "used by misuse. Symbols in the margin mark warnings and hint"
    ++ str "s. Numbers in brackets refer to parts shown in the drawings."
    ++ str " Thank you for your attention and have .".

(** 400 characters of prose, for a second page. *)
Definition prose_setup : text :=
  str "Place the device on a level surface and remove the transport"
    ++ str " locks. Connect the power cable to a grounded outlet. Switch"
    ++ str " the device on and wait until the status lamp turns green. O"
    ++ str "pen the settings menu and choose the language. Enter the dat"
    ++ str "e and the time when the display asks for them. Confirm each "
    ++ str "entry with the round key on the right. Thank you for your at"
    ++ str "tention and have a good day with the de.".

(** The two pages of the end-to-end scenario. *)
Definition intro_page : text := str "CHAPTER 1: INTRO" ++ nl ++ prose_intro.
Definition setup_page : text := str "Chapter 2: Setup" ++ nl ++ prose_setup.

(** A page whose first line is in capitals and whose second line is a
    numbered chapter heading, and the same page with the two lines
    exchanged. *)
Definition capitals_first_page : text :=
  str "USER MANUAL" ++ nl ++ str "Chapter 2: Setup" ++ nl ++ prose_setup.
Definition chapter_first_page : text :=
  str "Chapter 2: Setup" ++ nl ++ str "USER MANUAL" ++ nl ++ prose_setup.

(** A page long enough to be cut into several chunks. *)
Definition long_page : text :=
  prose_intro ++ str " " ++ prose_setup ++ str " " ++ prose_intro.

(** Collaborators for the examples: an embedding is the length of the
    text, a time is a number of clock readings, the index answers a query
    with the first [n_results] records that pass the filter, and the
    generation service refuses every request. *)
Definition sample_index_query (records : gmap text (nat * text * Metadata))
    (query_embedding n_results : nat) (where_filter : option text)
    : QueryResult nat Z :=
  let hits :=
    take n_results
      (List.filter (fun r =>
                      match where_filter with
                      | Some c => bool_decide (chapter r.2.2 = Some c)
                      | None => true
                      end) (map_to_list records)) in
  QResult (map (fun r => r.2.1.2) hits) (map (fun r => r.2.2) hits)
    (map (fun _ => 0%Z) hits).

Definition sample_cap : Capabilities := {|
  Embedding := nat;
  Float := Z;
  float_zero := 0%Z;
  float_sub := Z.sub;
  float_add := Z.add;
  encode_text := fun t => length t;
  index_query := sample_index_query;
  time_time := fun n => Z.of_nat n;
  completions_create := fun _ _ => Failure (str "rate limit exceeded")
|}.

(** A run that has not started: nothing stored, nothing asked. *)
Definition initial_world {cap : Capabilities} : World cap := MkWorld ∅ [] 0 [].

(** The state of a run after a call. *)
Definition state_after {cap A} (c : M cap A) (w : World cap) : World cap :=
  (c w).2.

(** The chunks of the end-to-end scenario. *)
Definition scenario_chunks : list DocumentChunk :=
  extract_chunks_with_metadata (str "data/manual.pdf")
    [Some intro_page; Some setup_page].

(** Two chunks of a manual with the chapters Troubleshooting and
    Installation, and the state after their ingestion. *)
Definition manual_chunks : list DocumentChunk :=
  [ Chunk prose_setup
      (Meta (Some (str "data/manual.pdf")) (Some (str "Troubleshooting"))
         (Some 7%Z));
    Chunk prose_intro
      (Meta (Some (str "data/manual.pdf")) (Some (str "Installation"))
         (Some 2%Z)) ].

Definition manual_world : World sample_cap :=
  state_after (add_documents manual_chunks) initial_world.

(** One chunk of a leaflet, for an ingestion after that of the manual. *)
Definition leaflet_chunks : list DocumentChunk :=
  [ Chunk prose_intro
      (Meta (Some (str "data/manual.pdf")) (Some (str "Safety"))
         (Some 1%Z)) ].

(** ** Vocabulary of the properties *)

(** A text without blank characters at either end. *)
Definition trimmed (s : text) : Prop :=
  (forall c, head s = Some c -> isspace c = false) /\
  (forall c, last s = Some c -> isspace c = false).

(** [p] occurs in [s]. *)
Definition occurs_in (p s : text) : Prop :=
  exists before after, s = before ++ p ++ after.

(** The number of distinct values of a list. *)
Definition distinct_count (l : list text) : nat := length (remove_dups l).

(** The chapter values of a list of chunks: the value under the key
    [chapter] of the metadata of each chunk, "Unknown" for a chunk
    without that key. *)
Definition chapter_values (chunks : list DocumentChunk) : list text :=
  map (fun c => match chapter (metadata c) with
                | Some name => name
                | None => str "Unknown"
                end) chunks.

(** What the data model asks of a chunk. *)
Definition well_formed_chunk (c : DocumentChunk) : Prop :=
  trimmed (chunk_text c) /\ 100 < length (chunk_text c) /\
  (exists p, page (metadata c) = Some p /\ (1 <= p)%Z) /\
  (exists name, chapter (metadata c) = Some name /\ name <> []).

(** A word: not empty and without blank characters. *)
Definition word (w : text) : Prop :=
  w <> [] /\ Forall (fun c => isspace c = false) w.

(** The chunk [c2] starts with the last 20 words of the chunk [c1], as
    words and as text. *)
Definition overlaps (c1 c2 : text) : Prop :=
  take 20 (split_ws c2) = last_n 20 (split_ws c1) /\
  join (str " ") (last_n 20 (split_ws c1)) `prefix_of` c2.

(** A chunk is the trimmed form of some text. *)
Definition stripped (c : text) : Prop := exists x, c = strip x.

(** The text that seeds the chunk after [c]: its last 20 words. *)
Definition seed_of (c : text) : text :=
  join (str " ") (last_n 20 (split_ws c)).

(** [current] is a chunk under construction that was seeded from [c]. *)
Definition seeded (c current : text) : Prop :=
  20 < length (split_ws c) ->
  exists rest, current = seed_of c ++ " "%char :: rest.

(** [c2] is the trimmed form of a chunk seeded from [c1]. *)
Definition follows (c1 c2 : text) : Prop :=
  exists current, c2 = strip current /\ seeded c1 current.

Definition adjacent (P : text -> text -> Prop) (chunks : list text) : Prop :=
  forall i a b, chunks !! i = Some a -> chunks !! S i = Some b -> P a b.

(** The records that ingesting [chunks] writes: id, vector, text and
    metadata of every chunk, in the order of the chunks. *)
Definition records_of (cap : Capabilities) (chunks : list DocumentChunk)
    : list (text * (Embedding cap * text * Metadata)) :=
  zip (map chunk_id (seq 0 (length chunks)))
    (zip (zip (map (encode_text cap) (map chunk_text chunks))
            (map chunk_text chunks))
       (map metadata chunks)).

(** The chapter names that chapter inference knows in a state: the
    [chapters] entry of the statistics. *)
Definition known_chapters {cap : Capabilities} (w : World cap) : list text :=
  chapters (collection_stats (collection w)).

(** The request that [generate_answer] sends. *)
Definition request_for (model_name query : text) (context_chunks : list text)
    (metas : list Metadata) : Request :=
  Req model_name
    [ Msg (str "system") system_prompt;
      Msg (str "user")
        (user_prompt (_build_context context_chunks metas) query) ].

(** The characters of a text that are not blank. *)
Definition solid (s : text) : text :=
  List.filter (fun c => negb (isspace c)) s.

Definition blank_text (s : text) : Prop :=
  Forall (fun c => isspace c = true) s.

(** A pattern whose matches, from any position, pass blank characters
    only. *)
Definition eats_blanks (r : regex) : Prop :=
  forall st res, rmatch r st Some = Some res ->
    exists ws, blank_text ws /\ ahead st = ws ++ ahead res.

(** The length of the chunk that a list of sentences makes when no split
    occurs: a space before every sentence. *)
Definition weight (pieces : list text) : nat :=
  sum_list (map (fun x => S (length x)) pieces).

(** The two pages of the end-to-end scenario, for any prose. *)
Definition scenario_pages (prose1 prose2 : text) : list (option text) :=
  [ Some (str "CHAPTER 1: INTRO" ++ nl ++ prose1);
    Some (str "Chapter 2: Setup" ++ nl ++ prose2) ].

(** ** Vocabulary of the further properties *)

(** The [where] filter that [search] gives to the index: a chapter filter
    that is [None] or the empty string is no filter. *)
Definition where_filter_of (chapter_filter : option text) : option text :=
  match chapter_filter with
  | Some c => if truthy c then Some c else None
  | None => None
  end.


(** Collaborators for the examples whose generation service answers. *)
Definition answering_cap : Capabilities := {|
  Embedding := nat;
  Float := Z;
  float_zero := 0%Z;
  float_sub := Z.sub;
  float_add := Z.add;
  encode_text := fun t => length t;
  index_query := sample_index_query;
  time_time := fun n => Z.of_nat n;
  completions_create :=
    fun _ _ => Completion (str "  Plug the cable into a grounded outlet. ")
|}.

(** A state of a match attempt on the text [whole]: the text passed and
    the text ahead make up [whole], and group 1, when set, occurs in it. *)
Definition consistent (whole : text) (st : mstate) : Prop :=
  reverse (passed st) ++ ahead st = whole /\
  forall g, group1 st = Some g -> occurs_in g whole.

(** The number of words that a chunk repeats from the chunk before it. *)
Definition overlap_of (previous : option text) : nat :=
  match previous with
  | Some p => if 20 <? length (split_ws p) then 20 else 0
  | None => 0
  end.

(** The words of a list of chunks without the words that each chunk
    repeats from the chunk before it. *)
Fixpoint fresh_words (previous : option text) (chunks : list text)
    : list text :=
  match chunks with
  | [] => []
  | c :: rest =>
      drop (overlap_of previous) (split_ws c) ++ fresh_words (Some c) rest
  end.


(** A page the loop of [extract_chunks_with_metadata] reads: it has a
    text whose trimmed form has at least 50 characters. *)
Definition readable (p : option text) : bool :=
  match p with
  | None => false
  | Some t => negb (negb (truthy t) || (length (strip t) <? 50))
  end.

(** The heading a page gives to the chunks that follow: the one
    [_detect_chapter] finds on a readable page, when it is not empty. *)
Definition heading_of_page (p : option text) : option text :=
  match p with
  | None => None
  | Some t =>
      if readable p then
        match _detect_chapter t with
        | Some name => if truthy name then Some name else None
        | None => None
        end
      else None
  end.

(** The heading in force after the pages [pages]: the last one they
    give, [current] when they give none. *)
Definition chapter_after (current : text) (pages : list (option text))
    : text :=
  default current (last (omap heading_of_page pages)).

(** The chunk [c] was cut from the page of index [i], which is page
    [first + i] of the document, and carries the heading in force
    there. *)
Definition from_page (pdf_path : text) (pages : list (option text))
    (first : Z) (current : text) (i : nat) (c : DocumentChunk) : Prop :=
  exists t,
    pages !! i = Some (Some t) /\ readable (Some t) = true /\
    chunk_text c ∈ _split_text t 800 100 /\
    metadata c =
      Meta (Some pdf_path)
        (Some (chapter_after current (take (S i) pages)))
        (Some (first + Z.of_nat i)%Z).

(** The page number of a chunk, 0 when it has none. *)
Definition page_of (c : DocumentChunk) : Z :=
  default 0%Z (page (metadata c)).

Definition page_order (c1 c2 : DocumentChunk) : Prop :=
  (page_of c1 <= page_of c2)%Z.

(** What a match attempt can do: [run r st st'] when the pattern [r] can
    take a match from the state [st] to the state [st'].  The upper bound
    of a repetition is left out. *)
Inductive run : regex -> mstate -> mstate -> Prop :=
| run_Eps st : run Eps st st
| run_Chr p c s' st :
    ahead st = c :: s' -> p c = true ->
    run (Chr p) st (MState (c :: passed st) s' (group1 st))
| run_Seq r1 r2 st st1 st2 :
    run r1 st st1 -> run r2 st1 st2 -> run (Seq r1 r2) st st2
| run_Alt_l r1 r2 st st' : run r1 st st' -> run (Alt r1 r2) st st'
| run_Alt_r r1 r2 st st' : run r2 st st' -> run (Alt r1 r2) st st'
| run_Rep_stop hi r st : run (Rep 0 hi r) st st
| run_Rep_step lo hi r st st1 st2 :
    run r st st1 -> length (ahead st1) < length (ahead st) ->
    run (Rep (Nat.pred lo) hi r) st1 st2 ->
    run (Rep lo hi r) st st2
| run_Group r st st' :
    run r st st' ->
    run (Group r) st
      (MState (passed st') (ahead st')
         (Some (take (length (ahead st) - length (ahead st')) (ahead st))))
| run_Bol st :
    match passed st with [] => True | c :: _ => is_newline c = true end ->
    run Bol st st
| run_Eol st :
    match ahead st with [] => True | c :: _ => is_newline c = true end ->
    run Eol st st
| run_Behind p c rest st :
    passed st = c :: rest -> p c = true -> run (Behind p) st st.

(** A text of one line. *)
Definition one_line (s : text) : Prop :=
  Forall (fun c => is_newline c = false) s.

(** * Properties *)

(** ** The embedding on small inputs *)

Example strip_blanks : strip (str "  two words  ") = str "two words".
Proof. reflexivity. Qed.

Example split_ws_blanks :
  split_ws (str "  a bb   ccc ") = [str "a"; str "bb"; str "ccc"].
Proof. reflexivity. Qed.

Example sentences_of_text :
  re_split sentence_end (str "One. Two! Three? e.g. four")
  = [str "One."; str "Two!"; str "Three?"; str "e.g."; str "four"].
Proof. vm_compute. reflexivity. Qed.

Example heading_with_number :
  _detect_chapter (str "3. Getting Started") = Some (str "Getting Started").
Proof. vm_compute. reflexivity. Qed.

Example heading_needs_a_name : _detect_chapter (str "Chapter 12") = None.
Proof. vm_compute. reflexivity. Qed.

Example heading_name_is_normalized :
  first_pattern patterns (str "Chapter 2:   Setup   and  more")
  = Some (str "Setup and more").
Proof. vm_compute. reflexivity. Qed.

Example small_chunks :
  _split_text (str "Hello world.  This is   a test! Is it? Yes. ") 20 100
  = [str "Hello world."; str "This is a test!"; str "Is it? Yes."].
Proof. vm_compute. reflexivity. Qed.

Example phrase_before_chapter :
  pattern_chapter mention_patterns
    (str "What is in the getting started chapter?")
    [str "Getting Started"; str "Setup"]
  = Some (str "Getting Started").
Proof. vm_compute. reflexivity. Qed.

Example chunk_id_of_12 : chunk_id 12 = str "chunk_12".
Proof. reflexivity. Qed.

Example sorted_by_code_point :
  sorted [str "b"; str "a"; str "B"; str "ab"]
  = [str "B"; str "a"; str "ab"; str "b"].
Proof. vm_compute. reflexivity. Qed.

(** ** Characters and strings *)

Lemma is_char_true x y : is_char x y = true <-> x = y.
Proof.
  unfold is_char, ord. rewrite N.eqb_eq. split; [|congruence].
  intros H. rewrite <- (ascii_N_embedding x), <- (ascii_N_embedding y).
  congruence.
Qed.

Lemma lstrip_decompose s :
  exists ws, s = ws ++ lstrip s /\ Forall (fun c => isspace c = true) ws.
Proof.
  induction s as [|c s [ws [E F]]]; simpl.
  - exists []. split; [done | constructor].
  - destruct (isspace c) eqn:Hc.
    + exists (c :: ws). split; [simpl; congruence | by constructor].
    + exists []. split; [done | constructor].
Qed.

Lemma lstrip_head s c : head (lstrip s) = Some c -> isspace c = false.
Proof.
  induction s as [|x s IH]; simpl; [done|].
  destruct (isspace x) eqn:Hx; [done|]. simpl. congruence.
Qed.

Lemma lstrip_id s :
  (forall c, head s = Some c -> isspace c = false) -> lstrip s = s.
Proof.
  destruct s as [|x s]; simpl; [done|]. intros H.
  by rewrite (H x eq_refl).
Qed.

Lemma rstrip_decompose s :
  exists ws, s = rstrip s ++ ws /\ Forall (fun c => isspace c = true) ws.
Proof.
  destruct (lstrip_decompose (reverse s)) as [ws [E F]].
  exists (reverse ws). split.
  - unfold rstrip. rewrite <- reverse_app, <- E. by rewrite reverse_involutive.
  - by apply Forall_reverse.
Qed.

Lemma rstrip_last s c : last (rstrip s) = Some c -> isspace c = false.
Proof.
  unfold rstrip. rewrite last_reverse. apply lstrip_head.
Qed.

Lemma rstrip_id s :
  (forall c, last s = Some c -> isspace c = false) -> rstrip s = s.
Proof.
  intros H. unfold rstrip. rewrite lstrip_id.
  - apply reverse_involutive.
  - intros c. rewrite head_reverse. apply H.
Qed.

Lemma rstrip_head s c :
  head (rstrip s) = Some c -> head s = Some c.
Proof.
  destruct (rstrip_decompose s) as [ws [E _]].
  intros H. rewrite E. destruct (rstrip s); [done|]. done.
Qed.

Lemma strip_trimmed s : trimmed (strip s).
Proof.
  split; intros c H.
  - apply rstrip_head in H. by apply lstrip_head in H.
  - by apply rstrip_last in H.
Qed.

Lemma trimmed_strip s : trimmed s -> strip s = s.
Proof.
  intros [H1 H2]. unfold strip. rewrite (lstrip_id s H1). by apply rstrip_id.
Qed.

Lemma strip_idemp s : strip (strip s) = strip s.
Proof. apply trimmed_strip, strip_trimmed. Qed.

(** ** Chunk extraction *)

Lemma split_loop_stripped size sentences chunks current :
  Forall stripped chunks ->
  Forall stripped (split_loop size sentences chunks current).1.
Proof.
  revert chunks current.
  induction sentences as [|sentence rest IH]; intros chunks current H; simpl.
  - done.
  - destruct (_ && _).
    + apply IH. apply Forall_app. split; [done|].
      constructor; [by eexists | constructor].
    + by apply IH.
Qed.

Lemma _split_text_stripped t size overlap :
  Forall stripped (_split_text t size overlap).
Proof.
  unfold _split_text.
  pose proof (split_loop_stripped size
    (re_split sentence_end (strip (re_sub blanks (str " ") t))) [] []
    (Forall_nil_2 _)) as H.
  destruct (split_loop _ _ _ _) as [chunks current]. simpl in H.
  destruct (truthy _); [|done].
  apply Forall_app. split; [done|]. constructor; [by eexists | constructor].
Qed.

Lemma page_documents_well_formed pdf_path current page_num page_chunks :
  (1 <= page_num)%Z -> current <> [] -> Forall stripped page_chunks ->
  Forall well_formed_chunk
    (page_documents pdf_path current page_num page_chunks).
Proof.
  intros Hp Hc Hs. unfold page_documents.
  apply Forall_forall. intros c Hin.
  apply list_elem_of_fmap in Hin as [chunk [-> Hin]].
  apply list_elem_of_filter in Hin as [Hlen Hin].
  rewrite Forall_forall in Hs. destruct (Hs _ Hin) as [x ->].
  rewrite strip_idemp in Hlen.
  repeat split; simpl.
  - apply strip_trimmed.
  - apply strip_trimmed.
  - done.
  - by exists page_num.
  - by exists current.
Qed.

Lemma extract_pages_well_formed pdf_path pages page_num current chunks :
  (1 <= page_num)%Z -> current <> [] -> Forall well_formed_chunk chunks ->
  Forall well_formed_chunk
    (extract_pages pdf_path pages page_num current chunks).
Proof.
  revert page_num current chunks.
  induction pages as [|p rest IH]; intros page_num current chunks Hp Hc H;
    simpl; [done|].
  destruct p as [t|]; [|apply IH; [lia|done..]].
  destruct (_ || _); [apply IH; [lia|done..]|].
  assert (forall name : text, (if truthy name then name else current) <> [])
    as Hname by (intros [|? ?]; simpl; done).
  apply IH; [lia| |].
  - destruct (_detect_chapter t); [apply Hname | done].
  - apply Forall_app. split; [done|].
    apply page_documents_well_formed; [done| |apply _split_text_stripped].
    destruct (_detect_chapter t); [apply Hname | done].
Qed.

(** C4.  Every chunk that extraction produces, on any sequence of pages,
    has a trimmed text of more than 100 characters, a page number that is
    at least 1 and a chapter name that is not empty. *)
Theorem extracted_chunks_well_formed pdf_path pages :
  Forall well_formed_chunk (extract_chunks_with_metadata pdf_path pages).
Proof.
  unfold extract_chunks_with_metadata.
  apply extract_pages_well_formed; [lia | done | constructor].
Qed.

(** ** Words *)

Lemma split_acc_blank cur ws :
  Forall (fun c => isspace c = true) ws -> split_acc cur ws = split_acc cur [].
Proof.
  intros H. revert cur. induction H as [|c ws Hc _ IH]; intros cur; [done|].
  simpl. rewrite Hc. destruct cur; rewrite IH; done.
Qed.

Lemma split_acc_app_space cur a c b :
  isspace c = true ->
  split_acc cur (a ++ c :: b) = split_acc cur a ++ split_acc [] b.
Proof.
  intros Hc. revert cur. induction a as [|x a IH]; intros cur; simpl.
  - rewrite Hc. by destruct cur.
  - destruct (isspace x); [destruct cur|]; by rewrite IH.
Qed.

Lemma split_acc_app_blank cur a ws :
  Forall (fun c => isspace c = true) ws ->
  split_acc cur (a ++ ws) = split_acc cur a.
Proof.
  intros H. revert cur. induction a as [|x a IH]; intros cur; simpl.
  - by apply split_acc_blank.
  - destruct (isspace x); [destruct cur|]; by rewrite IH.
Qed.

Lemma split_ws_lstrip s : split_ws (lstrip s) = split_ws s.
Proof.
  unfold split_ws. induction s as [|c s IH]; simpl; [done|].
  destruct (isspace c) eqn:Hc; [done|]. simpl. by rewrite Hc.
Qed.

Lemma split_ws_rstrip s : split_ws (rstrip s) = split_ws s.
Proof.
  destruct (rstrip_decompose s) as [ws [E F]].
  rewrite E at 2. unfold split_ws. by rewrite split_acc_app_blank.
Qed.

Lemma split_ws_strip s : split_ws (strip s) = split_ws s.
Proof. unfold strip. by rewrite split_ws_rstrip, split_ws_lstrip. Qed.

Lemma split_acc_nonblank cur w s :
  Forall (fun c => isspace c = false) w ->
  split_acc cur (w ++ s) = split_acc (reverse w ++ cur) s.
Proof.
  intros H. revert cur. induction H as [|c w Hc _ IH]; intros cur; [done|].
  simpl. rewrite Hc, IH, reverse_cons, <- app_assoc. done.
Qed.

Lemma split_ws_word w : word w -> split_ws w = [w].
Proof.
  intros [Hne H]. unfold split_ws.
  rewrite <- (app_nil_r w) at 1. rewrite split_acc_nonblank by done.
  rewrite app_nil_r. simpl.
  destruct (reverse w) eqn:E.
  - apply (f_equal reverse) in E. rewrite reverse_involutive in E. done.
  - by rewrite <- E, reverse_involutive.
Qed.

Lemma split_ws_join ws :
  Forall word ws -> split_ws (join [" "%char] ws) = ws.
Proof.
  induction 1 as [|w ws Hw Hws IH]; [done|].
  destruct ws as [|w2 ws]; [by apply split_ws_word|].
  change (join [" "%char] (w :: w2 :: ws))
    with (w ++ " "%char :: join [" "%char] (w2 :: ws)).
  unfold split_ws. rewrite split_acc_app_space by done.
  fold (split_ws w). fold (split_ws (join [" "%char] (w2 :: ws))).
  by rewrite IH, split_ws_word.
Qed.

Lemma split_acc_words cur s :
  Forall (fun c => isspace c = false) cur -> Forall word (split_acc cur s).
Proof.
  assert (forall cur : text, cur <> [] ->
            Forall (fun c => isspace c = false) cur -> word (reverse cur))
    as Hrev.
  { intros k Hk Hf. split.
    - intros E. apply (f_equal reverse) in E.
      rewrite reverse_involutive in E. done.
    - by apply Forall_reverse. }
  revert cur. induction s as [|c s IH]; intros cur Hcur; simpl.
  - destruct cur; [constructor|]. constructor; [by apply Hrev | constructor].
  - destruct (isspace c) eqn:Hc.
    + destruct cur; [by apply IH|].
      constructor; [by apply Hrev | by apply IH].
    + apply IH. by constructor.
Qed.

Lemma split_ws_words s : Forall word (split_ws s).
Proof. apply split_acc_words. constructor. Qed.

Lemma join_words_head ws c :
  Forall word ws -> head (join [" "%char] ws) = Some c -> isspace c = false.
Proof.
  intros H. destruct H as [|w ws [Hne Hw] Hws]; [done|].
  assert (head w = Some c -> isspace c = false) as Hh.
  { destruct w as [|x w]; [done|]. simpl. intros [= ->]. by inversion Hw. }
  destruct ws as [|w2 ws]; [done|].
  change (join [" "%char] (w :: w2 :: ws))
    with (w ++ " "%char :: join [" "%char] (w2 :: ws)).
  destruct w; [done|]. done.
Qed.

Lemma join_words_last ws c :
  Forall word ws -> last (join [" "%char] ws) = Some c -> isspace c = false.
Proof.
  induction 1 as [|w ws [Hne Hw] Hws IH]; [done|].
  assert (last w = Some c -> isspace c = false) as Hl.
  { intros Hlast. apply last_Some in Hlast as [w' ->].
    apply Forall_app in Hw as [_ Hw]. by inversion Hw. }
  destruct ws as [|w2 ws]; [done|].
  change (join [" "%char] (w :: w2 :: ws))
    with (w ++ " "%char :: join [" "%char] (w2 :: ws)).
  rewrite last_app. rewrite last_cons.
  destruct (last (join [" "%char] (w2 :: ws))) eqn:E.
  - intros [= ->]. by apply IH.
  - simpl. intros [= <-].
    apply last_None in E.
    inversion Hws as [|? ? [Hne2 _] _]; subst.
    destruct w2; [done|]. destruct ws; done.
Qed.

Lemma lstrip_app_nonblank a b c :
  head b = Some c -> isspace c = false -> lstrip (a ++ b) = lstrip a ++ b.
Proof.
  intros Hb Hc. induction a as [|x a IH]; simpl.
  - apply lstrip_id. intros c'. rewrite Hb. by intros [= <-].
  - by destruct (isspace x).
Qed.

Lemma rstrip_app_nonblank a b c :
  last a = Some c -> isspace c = false -> rstrip (a ++ b) = a ++ rstrip b.
Proof.
  intros Ha Hc. unfold rstrip.
  rewrite reverse_app, (lstrip_app_nonblank _ _ c), reverse_app,
    reverse_involutive; [done| |done].
  by rewrite head_reverse.
Qed.

(** ** Overlap between consecutive chunks *)

Lemma adjacent_snoc P chunks c :
  adjacent P chunks -> (forall a, last chunks = Some a -> P a c) ->
  adjacent P (chunks ++ [c]).
Proof.
  intros Hadj Hlast i a b Ha Hb.
  destruct (decide (S i < length chunks)) as [Hlt|Hge].
  - rewrite lookup_app_l in Ha by lia. rewrite lookup_app_l in Hb by lia.
    by eapply Hadj.
  - assert (S i = length chunks) as Hi.
    { apply lookup_lt_Some in Hb. rewrite length_app in Hb. simpl in Hb. lia. }
    rewrite lookup_app_l in Ha by lia.
    rewrite lookup_app_r in Hb by lia.
    replace (S i - length chunks) with 0 in Hb by lia. simpl in Hb.
    injection Hb as <-. apply Hlast.
    rewrite last_lookup. rewrite <- Hi. done.
Qed.

Lemma split_loop_follows size sentences chunks current :
  adjacent follows chunks ->
  (forall a, last chunks = Some a -> seeded a current) ->
  adjacent follows (split_loop size sentences chunks current).1 /\
  (forall a, last (split_loop size sentences chunks current).1 = Some a ->
             seeded a (split_loop size sentences chunks current).2).
Proof.
  revert chunks current.
  induction sentences as [|sentence rest IH]; intros chunks current Hadj Hseed;
    simpl; [done|].
  destruct (_ && _).
  - apply IH.
    + apply adjacent_snoc; [done|]. intros a Ha. exists current. auto.
    + intros a. rewrite last_snoc. intros [= <-] Hlen.
      rewrite split_ws_strip in Hlen.
      apply Nat.ltb_lt in Hlen as Hlen'. rewrite Hlen'.
      exists sentence. unfold seed_of. by rewrite split_ws_strip.
  - apply IH; [done|]. intros a Ha Hlen.
    destruct (Hseed a Ha Hlen) as [more ->].
    exists (more ++ str " " ++ sentence).
    by rewrite <- app_assoc.
Qed.

Lemma _split_text_follows t size overlap :
  adjacent follows (_split_text t size overlap).
Proof.
  unfold _split_text.
  destruct (split_loop_follows size
    (re_split sentence_end (strip (re_sub blanks (str " ") t))) [] [])
    as [Hadj Hseed].
  { intros i a b Ha. done. }
  { done. }
  destruct (split_loop _ _ _ _) as [chunks current]. simpl in *.
  destruct (truthy _); [|done].
  apply adjacent_snoc; [done|]. intros a Ha. exists current. auto.
Qed.

Lemma last_n_length {A} (n : nat) (l : list A) :
  n <= length l -> length (last_n n l) = n.
Proof. intros H. unfold last_n. rewrite length_drop. lia. Qed.

Lemma follows_overlaps c1 c2 :
  20 < length (split_ws c1) -> follows c1 c2 -> overlaps c1 c2.
Proof.
  intros Hlen [current [-> Hseed]].
  destruct (Hseed Hlen) as [rest ->]. unfold seed_of, overlaps.
  change (str " ") with [" "%char].
  set (tail := last_n 20 (split_ws c1)).
  assert (Forall word tail) as Hwords.
  { unfold tail, last_n. apply Forall_drop, split_ws_words. }
  assert (length tail = 20) as Htail by (apply last_n_length; lia).
  split.
  - rewrite split_ws_strip. unfold split_ws at 1.
    rewrite split_acc_app_space by done.
    fold (split_ws (join [" "%char] tail)). rewrite split_ws_join by done.
    rewrite take_app_length'; done.
  - destruct (last (join [" "%char] tail)) as [c|] eqn:Hlast.
    + unfold strip. rewrite lstrip_id.
      * rewrite (rstrip_app_nonblank _ _ c); [by eexists|done|].
        by eapply join_words_last.
      * intros x Hx. apply (join_words_head tail); [done|].
        destruct (join [" "%char] tail); [done|]. done.
    + apply last_None in Hlast. rewrite Hlast. apply prefix_nil.
Qed.

(** C5.  In the chunks of one page text, whenever a chunk has more than 20
    words, the chunk after it starts with its last 20 words: they are its
    first 20 words, and their text, joined by single spaces, is the
    beginning of its text. *)
Theorem consecutive_chunks_overlap t chunk_size overlap i c1 c2 :
  _split_text t chunk_size overlap !! i = Some c1 ->
  _split_text t chunk_size overlap !! S i = Some c2 ->
  20 < length (split_ws c1) ->
  overlaps c1 c2.
Proof.
  intros H1 H2 Hlen. apply follows_overlaps; [done|].
  by eapply _split_text_follows.
Qed.

(** ** The order of strings *)

Lemma ord_inj x y : ord x = ord y -> x = y.
Proof.
  unfold ord. intros H.
  rewrite <- (ascii_N_embedding x), <- (ascii_N_embedding y). congruence.
Qed.

Global Instance text_le_refl : Reflexive text_le.
Proof.
  intros a. unfold text_le. induction a as [|x a IH]; simpl; [done|].
  rewrite N.ltb_irrefl, N.eqb_refl. done.
Qed.

Global Instance text_le_total : Total text_le.
Proof.
  intros a. unfold text_le.
  induction a as [|x a IH]; intros [|y b]; simpl; auto.
  destruct (N.ltb_spec (ord x) (ord y)), (N.ltb_spec (ord y) (ord x)),
    (N.eqb_spec (ord x) (ord y)), (N.eqb_spec (ord y) (ord x));
    auto; lia.
Qed.

Global Instance text_le_trans : Transitive text_le.
Proof.
  intros a. unfold text_le.
  induction a as [|x a IH]; intros [|y b] [|z c]; simpl; try done.
  destruct (N.ltb_spec (ord x) (ord y)), (N.ltb_spec (ord y) (ord z)),
    (N.ltb_spec (ord x) (ord z)), (N.eqb_spec (ord x) (ord y)),
    (N.eqb_spec (ord y) (ord z)), (N.eqb_spec (ord x) (ord z));
    try done; try lia.
  apply IH.
Qed.

Global Instance text_le_antisym : AntiSymm (=) text_le.
Proof.
  intros a. unfold text_le.
  induction a as [|x a IH]; intros [|y b]; simpl; try done.
  destruct (N.ltb_spec (ord x) (ord y)), (N.ltb_spec (ord y) (ord x)),
    (N.eqb_spec (ord x) (ord y)), (N.eqb_spec (ord y) (ord x));
    try done; try lia.
  intros H1 H2. f_equal; [by apply ord_inj | by apply IH].
Qed.

Lemma sorted_strongly (l : list text) : StronglySorted text_le (sorted l).
Proof. apply StronglySorted_merge_sort; apply _. Qed.

Lemma sorted_elem_of (l : list text) c : c ∈ sorted l <-> c ∈ l.
Proof. unfold sorted. by rewrite merge_sort_Permutation. Qed.

Lemma sorted_NoDup (l : list text) : NoDup l -> NoDup (sorted l).
Proof. unfold sorted. by rewrite merge_sort_Permutation. Qed.

(** ** Ingestion *)

Global Instance decimal_inj : Inj (=) (=) decimal.
Proof.
  intros m n H. unfold decimal in H.
  apply (f_equal string_of_list_ascii) in H.
  rewrite !string_of_list_ascii_of_string in H.
  apply (f_equal NilEmpty.uint_of_string) in H.
  rewrite !NilEmpty.usu in H. injection H as H.
  by apply Unsigned.to_uint_inj.
Qed.

Global Instance chunk_id_inj : Inj (=) (=) chunk_id.
Proof.
  intros m n H. unfold chunk_id in H.
  apply app_inv_head in H. by apply decimal_inj.
Qed.

Lemma range_cover {A} (l : list A) (n step : nat) :
  0 < step -> n = length l ->
  concat (map (fun i => slice i (min (i + step) n) l) (range 0 n step)) = l.
Proof.
  intros Hstep ->. unfold range.
  assert (forall k,
    concat (map (fun i => slice i (min (i + step) (length l)) l)
              (map (fun k => 0 + k * step) (seq 0 k)))
    = take (min (k * step) (length l)) l) as Hk.
  { induction k as [|k IH]; [done|].
    rewrite seq_S, !map_app, concat_app, IH. simpl.
    rewrite app_nil_r. unfold slice.
    destruct (decide (k * step <= length l)) as [Hle|Hgt].
    - rewrite (Nat.min_l (k * step)) by lia.
      rewrite take_take_drop. f_equal. lia.
    - rewrite (Nat.min_r (k * step)) by lia.
      rewrite (Nat.min_r (step + k * step)) by lia.
      rewrite (drop_ge l (k * step)) by lia.
      rewrite take_nil, app_nil_r. done. }
  rewrite Hk. apply take_ge.
  pose proof (Nat.div_mod_eq (length l - 0 + (step - 1)) step).
  pose proof (Nat.mod_upper_bound (length l - 0 + (step - 1)) step).
  nia.
Qed.

Lemma slice_zip {A B} i j (l : list A) (k : list B) :
  zip (slice i j l) (slice i j k) = slice i j (zip l k).
Proof. unfold slice. by rewrite zip_with_drop, zip_with_take. Qed.

Lemma map_snd_snd_zip {A B C} (a : list A) (b : list B) (c : list C) :
  length a = length c -> length b = length c ->
  map (fun r => r.2.2) (zip a (zip b c)) = c.
Proof.
  revert a b. induction c as [|z c IH]; intros [|x a] [|y b]; simpl;
    try done.
  intros Ha Hb. f_equal. apply IH; lia.
Qed.

Section Ingestion.
Context {cap : Capabilities}.
Implicit Types (w : World cap) (chunks : list DocumentChunk).
Implicit Types
  (m : gmap text (Embedding cap * text * Metadata))
  (rs : list (text * (Embedding cap * text * Metadata))).

Lemma for_each_collection_add {A} (starts : list A)
    (E : A -> list (Embedding cap)) (D : A -> list text)
    (Mt : A -> list Metadata) (I : A -> list text) w :
  for_each starts (fun i => collection_add (E i) (D i) (Mt i) (I i)) w
  = (Returned tt,
     MkWorld
       (foldl put (collection w)
          (concat (map (fun i => zip (I i) (zip (zip (E i) (D i)) (Mt i)))
                     starts)))
       (encoded w) (ticks w) (requests w)).
Proof.
  revert w. induction starts as [|i starts IH]; intros w.
  - by destruct w.
  - simpl. unfold bind at 1. unfold collection_add at 1.
    rewrite IH. simpl. by rewrite foldl_app.
Qed.

Lemma records_of_length chunks : length (records_of cap chunks) = length chunks.
Proof.
  unfold records_of.
  rewrite !length_zip, !length_map, length_seq. lia.
Qed.

Lemma records_of_ids chunks :
  (records_of cap chunks).*1 = map chunk_id (seq 0 (length chunks)).
Proof.
  unfold records_of. apply fst_zip.
  rewrite !length_zip, !length_map, length_seq. lia.
Qed.

Lemma records_of_metadatas chunks :
  map (fun r => r.2.2) (records_of cap chunks) = map metadata chunks.
Proof.
  unfold records_of. apply map_snd_snd_zip.
  - by rewrite !length_map, length_seq.
  - rewrite length_zip, !length_map. lia.
Qed.

(** What [add_documents] does on a list that is not empty: one batch
    for the embedding model between two readings of the clock, and every
    record written. *)
Lemma add_documents_writes chunks w :
  chunks <> [] ->
  add_documents chunks w
  = (Returned tt,
     MkWorld (foldl put (collection w) (records_of cap chunks))
       (encoded w ++ [map chunk_text chunks]) (S (S (ticks w)))
       (requests w)).
Proof.
  intros Hne. unfold add_documents.
  destruct chunks as [|c0 chunks0]; [done|].
  set (chunks := c0 :: chunks0).
  unfold bind, now, encode.
  rewrite for_each_collection_add. simpl collection. simpl encoded.
  simpl ticks. simpl requests. do 2 f_equal. f_equal.
  transitivity
    (concat (map (fun i => slice i (min (i + 100) (length chunks))
                             (records_of cap chunks))
               (range 0 (length chunks) 100))).
  - f_equal. apply map_ext. intros i.
    unfold records_of. by rewrite !slice_zip.
  - apply range_cover; [lia | by rewrite records_of_length].
Qed.

Lemma put_fresh m rs :
  NoDup rs.*1 -> (forall k, k ∈ rs.*1 -> m !! k = None) ->
  map_to_list (foldl put m rs) ≡ₚ rs ++ map_to_list m.
Proof.
  revert m. induction rs as [|[k v] rs IH]; intros m Hnd Hfresh; [done|].
  simpl in *. apply NoDup_cons in Hnd as [Hk Hnd].
  rewrite IH; [|done|].
  - unfold put. simpl. rewrite map_to_list_insert.
    + by rewrite Permutation_middle.
    + apply Hfresh. left.
  - intros k' Hk'. unfold put. simpl. rewrite lookup_insert_ne.
    + apply Hfresh. by right.
    + intros ->. done.
Qed.

Lemma records_of_stored chunks :
  map_to_list (foldl put ∅ (records_of cap chunks)) ≡ₚ records_of cap chunks.
Proof.
  rewrite put_fresh.
  - by rewrite map_to_list_empty, app_nil_r.
  - rewrite records_of_ids. apply NoDup_fmap_2; [apply _|]. apply NoDup_seq.
  - intros k _. apply lookup_empty.
Qed.
End Ingestion.

Lemma size_list_to_set_distinct (l : list text) :
  size (list_to_set l : gset text) = distinct_count l.
Proof.
  unfold distinct_count.
  rewrite <- (size_list_to_set (C:=gset text) (remove_dups l))
    by apply NoDup_remove_dups.
  f_equal. apply set_eq. intros x.
  by rewrite !elem_of_list_to_set, elem_of_remove_dups.
Qed.

Section Statistics.
Context {cap : Capabilities}.
Implicit Types (w : World cap) (chunks : list DocumentChunk).

(** The statistics read the set of the chapter values of the stored
    records. *)
Lemma collection_stats_chapters
    (records : gmap text (Embedding cap * text * Metadata)) :
  let stored : gset text :=
    list_to_set (map (fun r => get_chapter r.2.2) (map_to_list records)) in
  unique_chapters (collection_stats records) = size stored /\
  chapters (collection_stats records) = sorted (elements stored).
Proof.
  unfold collection_stats. simpl. rewrite <- (map_map (fun r => r.2.2)).
  destruct (map (fun r => r.2.2) (map_to_list records)); done.
Qed.

Lemma known_chapters_sorted
    (records : gmap text (Embedding cap * text * Metadata)) :
  StronglySorted text_le (chapters (collection_stats records)).
Proof.
  destruct (collection_stats_chapters records) as [_ ->].
  apply sorted_strongly.
Qed.

(** The statistics after [chunks] went into an empty collection. *)
Lemma fresh_ingest_stats chunks w :
  collection w = ∅ ->
  exists w',
    add_documents chunks w = (Returned tt, w') /\
    total_chunks (collection_stats (collection w')) = length chunks /\
    unique_chapters (collection_stats (collection w'))
      = size (list_to_set (chapter_values chunks) : gset text) /\
    chapters (collection_stats (collection w'))
      = sorted (elements (list_to_set (chapter_values chunks) : gset text)).
Proof.
  intros Hempty. destruct chunks as [|c0 chunks0].
  - exists w. rewrite Hempty. done.
  - set (chunks := c0 :: chunks0).
    eexists. split; [by apply add_documents_writes|].
    simpl collection. rewrite Hempty.
    pose proof (records_of_stored (cap:=cap) chunks) as Hperm.
    assert (list_to_set (map (fun r => get_chapter r.2.2)
              (map_to_list (foldl put ∅ (records_of cap chunks))))
            = (list_to_set (chapter_values chunks) : gset text)) as Hset.
    { rewrite Hperm. f_equal.
      transitivity
        (map get_chapter (map (fun r => r.2.2) (records_of cap chunks))).
      - by rewrite map_map.
      - rewrite records_of_metadatas. unfold chapter_values.
        by rewrite map_map. }
    destruct (collection_stats_chapters
                (foldl put ∅ (records_of cap chunks))) as [Hu Hc].
    rewrite Hset in Hu, Hc. split_and!; [|done..].
    change (size (foldl put ∅ (records_of cap chunks)) = length chunks).
    rewrite <- length_map_to_list, Hperm. apply records_of_length.
Qed.
End Statistics.

(** C8, as stated, fails when the collection already holds records.
    The collection of the sample manual holds two records, of the
    chapters Installation and Troubleshooting.  The ingestion of one
    chunk, of the chapter Safety, into it returns normally, and the
    statistics then report two chunks and two chapters, not one of
    each. *)
Lemma used_collection_miscounts :
  size (collection manual_world) = 2 /\
  length leaflet_chunks = 1 /\
  distinct_count (chapter_values leaflet_chunks) = 1 /\
  exists w' stats,
    add_documents leaflet_chunks manual_world = (Returned tt, w') /\
    get_collection_stats w' = (Returned stats, w') /\
    total_chunks stats = 2 /\
    unique_chapters stats = 2 /\
    total_chunks stats <> length leaflet_chunks /\
    unique_chapters stats <> distinct_count (chapter_values leaflet_chunks) /\
    chapters stats <> [str "Safety"].
Proof.
  split; [vm_compute; reflexivity|].
  split; [reflexivity|].
  split; [vm_compute; reflexivity|].
  eexists _, _.
  split; [apply add_documents_writes; discriminate|].
  split; [reflexivity|].
  split; [vm_compute; reflexivity|].
  split; [vm_compute; reflexivity|].
  split; [vm_compute; discriminate|].
  split; [vm_compute; discriminate|].
  vm_compute. discriminate.
Qed.

(** C8, amended.  After [chunks] are ingested into an empty collection,
    the statistics count every chunk, count the distinct chapter values
    of the chunks, and list those values in increasing order without
    repetition. *)
Theorem stats_after_ingest (cap : Capabilities) (w : World cap) chunks :
  collection w = ∅ ->
  exists w' stats,
    add_documents chunks w = (Returned tt, w') /\
    get_collection_stats w' = (Returned stats, w') /\
    total_chunks stats = length chunks /\
    unique_chapters stats = distinct_count (chapter_values chunks) /\
    StronglySorted text_le (chapters stats) /\
    NoDup (chapters stats) /\
    (forall c, c ∈ chapters stats <-> c ∈ chapter_values chunks).
Proof.
  intros Hempty.
  destruct (fresh_ingest_stats chunks w Hempty) as (w' & Hadd & Ht & Hu & Hc).
  exists w', (collection_stats (collection w')).
  split_and!; [done|done|done|..].
  - by rewrite Hu, size_list_to_set_distinct.
  - apply known_chapters_sorted.
  - rewrite Hc. apply sorted_NoDup, NoDup_elements.
  - intros c. by rewrite Hc, sorted_elem_of, elem_of_elements,
      elem_of_list_to_set.
Qed.

(** C9.  Ingesting an empty list of chunks returns normally and leaves
    the whole state as it was: the collection has the same records and the
    embedding model has been given no batch. *)
Theorem ingest_nothing (cap : Capabilities) (w : World cap) :
  add_documents [] w = (Returned tt, w) /\
  collection (state_after (add_documents []) w) = collection w /\
  encoded (state_after (add_documents []) w) = encoded w.
Proof. split_and!; reflexivity. Qed.

(** ** Answer generation *)

Lemma generate_answer_empty (cap : Capabilities) (w : World cap)
    model_name query metas :
  generate_answer model_name query [] metas w
  = (Returned (MkAnswer no_context_answer (float_zero cap) [] model_name),
     MkWorld (collection w) (encoded w) (S (ticks w)) (requests w)).
Proof. reflexivity. Qed.

(** C3.  With no context chunk, [generate_answer] returns normally with
    the fixed answer and the elapsed time 0.0; the requests sent to the
    generation service are those sent before the call, and the collection
    is untouched; the result is the same for every query and every list of
    metadata, from which no prompt is formed. *)
Theorem no_context_short_circuit (cap : Capabilities) (w : World cap)
    model_name query metas :
  exists a w',
    generate_answer model_name query [] metas w = (Returned a, w') /\
    answer a = no_context_answer /\
    generation_time a = float_zero cap /\
    context_used a = [] /\
    requests w' = requests w /\
    collection w' = collection w /\
    forall query' metas',
      generate_answer model_name query' [] metas' w = (Returned a, w').
Proof.
  eexists _, _. split; [apply generate_answer_empty|].
  split_and!; [reflexivity..|].
  intros query' metas'. apply generate_answer_empty.
Qed.

Section Answering.
Context {cap : Capabilities}.
Implicit Types (w : World cap).


Lemma _extract_chapter_mention_returns query w :
  _extract_chapter_mention query w
  = (Returned
       (match mentioned_chapter (known_chapters w) (lower query) with
        | Some chapter => Some chapter
        | None =>
            pattern_chapter mention_patterns query (known_chapters w)
        end), w).
Proof.
  unfold _extract_chapter_mention, bind, get_collection_stats, known_chapters.
  by destruct (mentioned_chapter _ _).
Qed.

Lemma search_returns query chapter_filter top_k w :
  exists results,
    search query chapter_filter top_k w
    = (Returned results,
       MkWorld (collection w) (encoded w ++ [[query]]) (S (S (ticks w)))
         (requests w)).
Proof.
  unfold search, bind, now, encode, ret. simpl.
  destruct (documents _); eauto.
Qed.
End Answering.


(** ** Chapter inference *)

Lemma starts_with_prefix p s : starts_with p s = true <-> p `prefix_of` s.
Proof.
  revert s. induction p as [|x p IH]; intros s; simpl.
  - split; [intros _; apply prefix_nil | done].
  - destruct s as [|y s].
    + split; [done|]. intros [k Hk]. done.
    + rewrite andb_true_iff, is_char_true, IH. split.
      * intros [-> Hp]. by apply prefix_cons.
      * intros H. split.
        -- by apply prefix_cons_inv_1 in H.
        -- by apply prefix_cons_inv_2 in H.
Qed.

Lemma contains_occurs_in p s : contains p s = true <-> occurs_in p s.
Proof.
  induction s as [|c s IH]; simpl.
  - rewrite orb_false_r, starts_with_prefix. split.
    + intros [k Hk]. exists [], k. done.
    + intros (before & after & H). symmetry in H.
      apply app_eq_nil in H as [-> H]. apply app_eq_nil in H as [-> ->].
      done.
  - rewrite orb_true_iff, starts_with_prefix, IH. split.
    + intros [[k Hk] | (before & after & H)].
      * exists [], k. done.
      * exists (c :: before), after. simpl. by rewrite H.
    + intros (before & after & H). destruct before as [|b before].
      * left. exists after. done.
      * right. injection H as _ H. by exists before, after.
Qed.

Lemma not_contains_occurs_in p s : contains p s = false <-> ~ occurs_in p s.
Proof.
  rewrite <- contains_occurs_in. by destruct (contains p s).
Qed.

(** The first loop returns the first chapter of the list that the query
    mentions. *)
Lemma mentioned_chapter_first available q :
  match mentioned_chapter available q with
  | Some c0 =>
      exists before after,
        available = before ++ c0 :: after /\
        contains (lower c0) q = true /\
        Forall (fun c => contains (lower c) q = false) before
  | None => Forall (fun c => contains (lower c) q = false) available
  end.
Proof.
  induction available as [|c rest IH]; simpl; [constructor|].
  destruct (contains (lower c) q) eqn:Hc.
  - exists [], rest. split_and!; [done|done|constructor].
  - destruct (mentioned_chapter rest q) as [c0|].
    + destruct IH as (before & after & -> & Hc0 & Hb).
      exists (c :: before), after. split_and!; [done|done|by constructor].
    + by constructor.
Qed.

Lemma same_chapter_none available potential :
  (forall c, c ∈ available -> lower c <> lower potential) ->
  same_chapter available potential = None.
Proof.
  induction available as [|c rest IH]; intros H; simpl; [done|].
  unfold text_eqb. rewrite bool_decide_eq_false_2 by (apply H; left).
  apply IH. intros c' Hc'. apply H. by right.
Qed.

Lemma pattern_chapter_none ps query available :
  (forall p m c, p ∈ ps -> re_search p query = Some m -> c ∈ available ->
     lower c <> lower (title (strip (group m)))) ->
  pattern_chapter ps query available = None.
Proof.
  induction ps as [|p ps IH]; intros H; simpl; [done|].
  destruct (re_search p query) as [m|] eqn:Hm.
  - rewrite same_chapter_none.
    + apply IH. intros p' m' c Hp'. apply H. by right.
    + intros c Hc. eapply H; [left|done|done].
  - apply IH. intros p' m' c Hp'. apply H. by right.
Qed.

Section Inference.
Context {cap : Capabilities}.
Implicit Types (w : World cap).

Lemma mentioned_chapter_least w query c :
  c ∈ known_chapters w -> occurs_in (lower c) (lower query) ->
  exists c0,
    mentioned_chapter (known_chapters w) (lower query) = Some c0 /\
    c0 ∈ known_chapters w /\
    occurs_in (lower c0) (lower query) /\
    forall c', c' ∈ known_chapters w ->
               occurs_in (lower c') (lower query) -> text_le c0 c'.
Proof.
  intros Hc Hocc.
  pose proof (known_chapters_sorted (collection w)) as Hsorted.
  fold (known_chapters w) in Hsorted.
  pose proof (mentioned_chapter_first (known_chapters w) (lower query)) as H.
  destruct (mentioned_chapter _ _) as [c0|].
  - destruct H as (before & after & E & Hc0 & Hb).
    exists c0. rewrite E in *. split_and!; [done| | |].
    + apply elem_of_app. right. left.
    + by apply contains_occurs_in.
    + intros c' Hc' Hocc'.
      apply elem_of_app in Hc' as [Hc'|Hc'].
      * rewrite Forall_forall in Hb. apply Hb in Hc'.
        apply not_contains_occurs_in in Hc'. done.
      * apply StronglySorted_app_1_r in Hsorted.
        apply elem_of_cons in Hc' as [->|Hc']; [reflexivity|].
        apply StronglySorted_inv in Hsorted as [_ Hall].
        rewrite Forall_forall in Hall. by apply Hall.
  - rewrite Forall_forall in H. apply H in Hc.
    apply not_contains_occurs_in in Hc. done.
Qed.

End Inference.

(** C10.  Chapter inference reads the known chapters in increasing order:
    when the lower-cased query contains the lower-cased name of some known
    chapter, inference returns the least, in the order of strings, of the
    known chapters whose lower-cased name the lower-cased query contains. *)
Theorem least_mentioned_chapter_wins (cap : Capabilities) (w : World cap)
    query c :
  c ∈ known_chapters w -> occurs_in (lower c) (lower query) ->
  StronglySorted text_le (known_chapters w) /\
  exists c0,
    _extract_chapter_mention query w = (Returned (Some c0), w) /\
    c0 ∈ known_chapters w /\
    occurs_in (lower c0) (lower query) /\
    forall c', c' ∈ known_chapters w ->
               occurs_in (lower c') (lower query) -> text_le c0 c'.
Proof.
  intros Hc Hocc. split; [apply known_chapters_sorted|].
  destruct (mentioned_chapter_least w query c Hc Hocc) as (c0 & E & H).
  exists c0. split; [|done].
  by rewrite _extract_chapter_mention_returns, E.
Qed.


(** ** Heading detection *)

Lemma first_heading_skip before rest :
  Forall (fun l => heading_of_line l = None) before ->
  first_heading (before ++ rest) = first_heading rest.
Proof.
  induction 1 as [|l before Hl _ IH]; [done|]. simpl. by rewrite Hl.
Qed.

Lemma heading_of_chapter_line line name :
  3 <= length (strip line) <= 100 ->
  option_map group (re_match chapter_pattern (strip line)) = Some name ->
  heading_of_line line = Some (re_sub blanks (str " ") (strip name)).
Proof.
  intros [Hlo Hhi] Hm. unfold heading_of_line.
  assert ((100 <? length (strip line)) || (length (strip line) <? 3) = false)
    as ->.
  { apply orb_false_iff. split; apply Nat.ltb_ge; lia. }
  unfold patterns. cbn [first_pattern].
  destruct (re_match chapter_pattern (strip line)) as [m|]; [|done].
  simpl in Hm. by injection Hm as ->.
Qed.

Lemma split_on_first sep cur h p :
  Forall (fun c => is_char sep c = false) h ->
  split_on sep cur (h ++ sep :: p)
  = reverse (reverse h ++ cur) :: split_on sep [] p.
Proof.
  intros H. revert cur. induction H as [|x h Hx _ IH]; intros cur; simpl.
  - assert (is_char sep sep = true) as -> by by apply is_char_true.
    done.
  - rewrite Hx, IH, reverse_cons, <- app_assoc. done.
Qed.

(** A heading on the first line of a page is the detected chapter,
    whatever follows the line. *)
Lemma detect_chapter_first_line h p name :
  Forall (fun c => is_newline c = false) h ->
  heading_of_line h = Some name ->
  _detect_chapter (h ++ nl ++ p) = Some name.
Proof.
  intros Hh Hname. unfold _detect_chapter, split_lines.
  change (h ++ nl ++ p) with (h ++ "010"%char :: p).
  rewrite split_on_first by exact Hh.
  rewrite app_nil_r, reverse_involutive.
  cbn [take first_heading]. by rewrite Hname.
Qed.

(** C1, as stated, fails on [capitals_first_page]: its first line is a
    header in capitals, its second line is "Chapter 2: Setup", and the
    detected chapter is the first line, not "Setup". *)
Lemma capitals_line_first_wins :
  take 5 (split_lines capitals_first_page) !! 0 = Some (str "USER MANUAL") /\
  take 5 (split_lines capitals_first_page) !! 1
    = Some (str "Chapter 2: Setup") /\
  option_map group (re_match capitals_pattern (str "USER MANUAL"))
    = Some (str "USER MANUAL") /\
  option_map group (re_match chapter_pattern (str "Chapter 2: Setup"))
    = Some (str "Setup") /\
  _detect_chapter capitals_first_page = Some (str "USER MANUAL") /\
  _detect_chapter capitals_first_page <> Some (str "Setup").
Proof.
  split_and!; try (vm_compute; reflexivity).
  vm_compute. discriminate.
Qed.

(** C1, amended.  Heading detection returns the heading of the first
    line, among the first 5 lines of the page, that yields one.  So when a
    line matches the "Chapter N: <name>" pattern (its trimmed text has 3 to
    100 characters) and no line before it yields a heading, the result is
    the name captured by that pattern, trimmed and with single spaces,
    whatever the lines after it are and whatever other patterns the line
    matches; a line before it that yields a heading, such as a header in
    capitals, gives the result instead. *)
Theorem first_heading_line_wins t before line after :
  take 5 (split_lines t) = before ++ line :: after ->
  Forall (fun l => heading_of_line l = None) before ->
  (forall name,
     heading_of_line line = Some name -> _detect_chapter t = Some name) /\
  (forall name,
     3 <= length (strip line) <= 100 ->
     option_map group (re_match chapter_pattern (strip line)) = Some name ->
     _detect_chapter t = Some (re_sub blanks (str " ") (strip name))).
Proof.
  intros Hlines Hbefore.
  assert (_detect_chapter t = first_heading (line :: after)) as ->.
  { unfold _detect_chapter. by rewrite Hlines, first_heading_skip. }
  cbn [first_heading]. split.
  - by intros name ->.
  - intros name Hlen Hm. by rewrite (heading_of_chapter_line line name).
Qed.

(** On the two sample pages: the chapter line first gives "Setup", the
    line in capitals first gives "USER MANUAL". *)
Lemma first_heading_line_wins_witness :
  (take 5 (split_lines chapter_first_page)
     = [] ++ str "Chapter 2: Setup"
          :: drop 1 (take 5 (split_lines chapter_first_page)) /\
   drop 1 (take 5 (split_lines chapter_first_page)) !! 0
     = Some (str "USER MANUAL") /\
   _detect_chapter chapter_first_page
     = Some (re_sub blanks (str " ") (strip (str "Setup"))) /\
   re_sub blanks (str " ") (strip (str "Setup")) = str "Setup") /\
  (take 5 (split_lines capitals_first_page)
     = [] ++ str "USER MANUAL"
          :: drop 1 (take 5 (split_lines capitals_first_page)) /\
   drop 1 (take 5 (split_lines capitals_first_page)) !! 0
     = Some (str "Chapter 2: Setup") /\
   _detect_chapter capitals_first_page = Some (str "USER MANUAL")).
Proof.
  split.
  - split; [vm_compute; reflexivity|].
    split; [vm_compute; reflexivity|].
    split; [|vm_compute; reflexivity].
    apply (proj2 (first_heading_line_wins chapter_first_page []
                    (str "Chapter 2: Setup")
                    (drop 1 (take 5 (split_lines chapter_first_page)))
                    ltac:(vm_compute; reflexivity) ltac:(constructor))).
    + vm_compute. lia.
    + vm_compute. reflexivity.
  - split; [vm_compute; reflexivity|].
    split; [vm_compute; reflexivity|].
    apply (proj1 (first_heading_line_wins capitals_first_page []
                    (str "USER MANUAL")
                    (drop 1 (take 5 (split_lines capitals_first_page)))
                    ltac:(vm_compute; reflexivity) ltac:(constructor))).
    vm_compute. reflexivity.
Defined.

(** On [long_page], which is cut into two chunks. *)
Lemma consecutive_chunks_overlap_witness :
  _split_text long_page 800 100 !! 0
    = Some (default [] (_split_text long_page 800 100 !! 0)) /\
  _split_text long_page 800 100 !! 1
    = Some (default [] (_split_text long_page 800 100 !! 1)) /\
  20 < length (split_ws (default [] (_split_text long_page 800 100 !! 0))) /\
  overlaps (default [] (_split_text long_page 800 100 !! 0))
    (default [] (_split_text long_page 800 100 !! 1)).
Proof.
  assert (20 < length
            (split_ws (default [] (_split_text long_page 800 100 !! 0))))
    as Hlen by (apply Nat.ltb_lt; vm_compute; reflexivity).
  split; [vm_compute; reflexivity|].
  split; [vm_compute; reflexivity|].
  split; [exact Hlen|].
  apply (consecutive_chunks_overlap long_page 800 100 0);
    [vm_compute; reflexivity | vm_compute; reflexivity | exact Hlen].
Defined.

(** ** Pages that fit in one chunk *)

Lemma solid_app a b : solid (a ++ b) = solid a ++ solid b.
Proof. apply List.filter_app. Qed.

Lemma solid_blank ws : blank_text ws -> solid ws = [].
Proof.
  induction 1 as [|c ws Hc _ IH]; [done|]. simpl. by rewrite Hc.
Qed.

Lemma solid_length s : length (solid s) <= length s.
Proof. apply List.filter_length_le. Qed.

Lemma solid_strip s : solid (strip s) = solid s.
Proof.
  unfold strip.
  destruct (lstrip_decompose s) as [ws1 [E1 F1]].
  destruct (rstrip_decompose (lstrip s)) as [ws2 [E2 F2]].
  rewrite E1 at 2. rewrite E2 at 2.
  rewrite !solid_app, (solid_blank ws1), (solid_blank ws2) by done.
  by rewrite app_nil_r.
Qed.

Lemma sub_scan_solid r repl :
  eats_blanks r -> blank_text repl ->
  forall after skip before,
    blank_text (take skip after) ->
    solid (sub_scan r repl skip before after) = solid after.
Proof.
  intros Hr Hrepl. induction after as [|c s' IH]; intros skip before Hskip;
    [done|].
  cbn [sub_scan]. destruct skip as [|n].
  - destruct (rmatch r _ Some) as [res|] eqn:Hres.
    + apply Hr in Hres as [ws [Hws E]]. cbn [ahead] in E.
      rewrite E at 1. rewrite length_app.
      replace (length ws + length (ahead res) - length (ahead res))
        with (length ws) by lia.
      destruct ws as [|x ws]; cbn [length].
      * simpl. rewrite IH by constructor. done.
      * simpl in E. injection E as <- E.
        apply Forall_cons in Hws as [Hc Hws].
        rewrite solid_app, (solid_blank repl) by done. simpl. rewrite Hc.
        simpl. apply IH. rewrite E. by rewrite take_app_length.
    + simpl. rewrite IH by constructor. done.
  - simpl in Hskip. apply Forall_cons in Hskip as [Hc Hskip].
    simpl. rewrite Hc. simpl. by apply IH.
Qed.

Lemma sub_scan_length r x after : forall skip before,
  length (sub_scan r [x] skip before after) <= length after.
Proof.
  induction after as [|c s' IH]; intros skip before; [done|].
  cbn [sub_scan]. destruct skip as [|n].
  - destruct (rmatch r _ Some) as [res|].
    + destruct (_ - _) as [|n]; simpl.
      * specialize (IH 0 (c :: before)). lia.
      * specialize (IH n (c :: before)). lia.
    + simpl. specialize (IH 0 (c :: before)). lia.
  - simpl. specialize (IH n (c :: before)). lia.
Qed.

Lemma split_scan_weight r after : forall skip before piece,
  weight (split_scan r skip before after piece)
  <= S (length piece + length after).
Proof.
  unfold weight.
  induction after as [|c s' IH]; intros skip before piece.
  - simpl. rewrite length_reverse. lia.
  - cbn [split_scan]. destruct skip as [|n].
    + destruct (rmatch r _ Some) as [res|].
      * destruct (_ - _) as [|n]; simpl.
        -- specialize (IH 0 (c :: before) (c :: piece)). simpl in IH. lia.
        -- specialize (IH n (c :: before) []). simpl in IH.
           rewrite length_reverse. lia.
      * specialize (IH 0 (c :: before) (c :: piece)). simpl in *. lia.
    + specialize (IH n (c :: before) piece). simpl. lia.
Qed.

Lemma split_scan_solid r :
  eats_blanks r ->
  forall after skip before piece,
    blank_text (take skip after) ->
    solid (concat (split_scan r skip before after piece))
    = solid (reverse piece ++ after).
Proof.
  intros Hr. induction after as [|c s' IH]; intros skip before piece Hskip.
  - simpl. by rewrite !app_nil_r.
  - cbn [split_scan]. destruct skip as [|n].
    + destruct (rmatch r _ Some) as [res|] eqn:Hres.
      * apply Hr in Hres as [ws [Hws E]]. cbn [ahead] in E.
        rewrite E at 1. rewrite length_app.
        replace (length ws + length (ahead res) - length (ahead res))
          with (length ws) by lia.
        destruct ws as [|x ws]; cbn [length].
        -- rewrite IH by constructor. rewrite reverse_cons, <- app_assoc. done.
        -- simpl in E. injection E as <- E.
           apply Forall_cons in Hws as [Hc Hws].
           simpl. rewrite solid_app, IH.
           ++ rewrite !solid_app. simpl. by rewrite Hc.
           ++ rewrite E. by rewrite take_app_length.
      * rewrite IH by constructor. rewrite reverse_cons, <- app_assoc. done.
    + simpl in Hskip. apply Forall_cons in Hskip as [Hc Hskip].
      rewrite IH by done. rewrite !solid_app. simpl. by rewrite Hc.
Qed.

Lemma rmatch_blanks : eats_blanks blanks.
Proof.
  intros st res. unfold blanks, plus. cbn [rmatch].
  generalize 1 as lo. intros lo.
  generalize (length (ahead st)) as fuel. generalize 0 as n.
  intros n fuel. revert n st.
  assert (forall n st,
            (if lo <=? n then Some st else None) = Some res ->
            exists ws, blank_text ws /\ ahead st = ws ++ ahead res) as Hstop.
  { intros n st. destruct (lo <=? n); [|done]. intros [= <-].
    exists []. split; [constructor|done]. }
  induction fuel as [|fuel IH]; intros n st; cbn -[Nat.leb Nat.ltb].
  - apply Hstop.
  - destruct (ahead st) as [|c s'] eqn:E; [rewrite <- E; apply Hstop|].
    destruct (isspace c) eqn:Hc; [|rewrite <- E; apply Hstop].
    destruct (length s' <? length (c :: s'));
      [|rewrite <- E; apply Hstop].
    match goal with
    | |- match ?X with _ => _ end = _ -> _ => destruct X as [r|] eqn:Hr
    end; [|rewrite <- E; apply Hstop].
    intros [= <-]. apply IH in Hr as [ws [Hws Hr]]. cbn [ahead] in Hr.
    exists (c :: ws). split; [by constructor|]. simpl. by rewrite Hr.
Qed.

Lemma rmatch_sentence_end : eats_blanks sentence_end.
Proof.
  intros st res. unfold sentence_end. cbn [rmatch].
  destruct (passed st) as [|c ?]; [done|].
  destruct (any_of _ c); [|done]. apply rmatch_blanks.
Qed.

Lemma strip_length s : length (strip s) <= length s.
Proof.
  unfold strip.
  destruct (lstrip_decompose s) as [ws1 [E1 _]].
  destruct (rstrip_decompose (lstrip s)) as [ws2 [E2 _]].
  rewrite E1 at 2. rewrite E2 at 2. rewrite !length_app. lia.
Qed.

Lemma split_loop_no_split size sentences chunks current :
  length current + weight sentences <= size ->
  split_loop size sentences chunks current
  = (chunks, current ++ concat (map (fun s => " "%char :: s) sentences)).
Proof.
  unfold weight. revert current.
  induction sentences as [|sentence rest IH]; intros current H; simpl.
  - by rewrite app_nil_r.
  - simpl in H.
    assert ((size <? length current + length sentence) = false) as ->
      by (apply Nat.ltb_ge; lia).
    simpl. rewrite IH.
    + by rewrite <- app_assoc.
    + rewrite length_app. simpl. lia.
Qed.

Lemma solid_spaced sentences :
  solid (concat (map (fun s => " "%char :: s) sentences))
  = solid (concat sentences).
Proof.
  induction sentences as [|s rest IH]; [done|].
  simpl. rewrite !solid_app, IH. done.
Qed.

(** A text shorter than the chunk size, with some character that is not
    blank, gives one chunk, which has every non-blank character of it. *)
Lemma _split_text_single t size overlap :
  length t < size -> solid t <> [] ->
  exists c, _split_text t size overlap = [c] /\ stripped c /\ solid c = solid t.
Proof.
  intros Hlen Hsolid. unfold _split_text.
  set (t' := strip (re_sub blanks (str " ") t)).
  assert (length t' <= length t) as Hlen'.
  { unfold t'. etrans; [apply strip_length|]. apply sub_scan_length. }
  assert (solid t' = solid t) as Hsolid'.
  { unfold t'. rewrite solid_strip. apply sub_scan_solid.
    - apply rmatch_blanks.
    - by repeat constructor.
    - constructor. }
  rewrite split_loop_no_split.
  - set (current := [] ++ _).
    assert (solid (strip current) = solid t) as Hc.
    { rewrite solid_strip. unfold current. simpl. rewrite solid_spaced.
      unfold re_split. rewrite split_scan_solid.
      - done.
      - apply rmatch_sentence_end.
      - constructor. }
    destruct (strip current) as [|x c] eqn:E; [by rewrite <- Hc in Hsolid|].
    simpl. exists (x :: c). split; [done|]. split; [|done].
    exists current. done.
  - simpl. pose proof (split_scan_weight sentence_end t' 0 [] []) as Hw.
    unfold re_split. simpl in Hw. lia.
Qed.

Lemma extract_single_chunk_page pdf_path t rest page_num current chunks name :
  length t < 800 -> 100 < length (solid t) ->
  _detect_chapter t = Some name -> name <> [] ->
  exists c,
    extract_pages pdf_path (Some t :: rest) page_num current chunks
    = extract_pages pdf_path rest (page_num + 1) name
        (chunks ++ [Chunk c (Meta (Some pdf_path) (Some name)
                               (Some page_num))]).
Proof.
  intros Hlen Hsolid Hdetect Hname.
  destruct (_split_text_single t 800 100) as (c & Hsplit & [x Hc] & Hsc);
    [done| |].
  { intros E. rewrite E in Hsolid. simpl in Hsolid. lia. }
  exists c. cbn [extract_pages].
  assert (truthy t = true) as ->.
  { destruct t; [simpl in Hsolid; lia | done]. }
  assert ((length (strip t) <? 50) = false) as ->.
  { apply Nat.ltb_ge. pose proof (solid_length (strip t)) as H.
    rewrite solid_strip in H. lia. }
  cbn [negb orb]. rewrite Hdetect, Hsplit.
  assert (truthy name = true) as -> by (by destruct name).
  f_equal. f_equal. unfold page_documents.
  rewrite filter_cons_True; [done|].
  rewrite Hc, strip_idemp, <- Hc.
  pose proof (solid_length c) as H. rewrite Hsc in H. lia.
Qed.

(** ** The end-to-end scenario *)

(** C2, as stated, fails: the two pages give two chunks, but the chapter
    of the first is "INTRO", as the page spells it, and the chapter values
    are no rearrangement of "Intro" and "Setup". *)
Lemma scenario_chapter_keeps_its_case :
  length prose_intro = 400 /\ length prose_setup = 400 /\
  map (fun c => chapter (metadata c)) scenario_chunks
    = [Some (str "INTRO"); Some (str "Setup")] /\
  ~ (chapter_values scenario_chunks ≡ₚ [str "Intro"; str "Setup"]).
Proof.
  split_and!; try (vm_compute; reflexivity).
  assert (chapter_values scenario_chunks = [str "INTRO"; str "Setup"]) as ->
    by (vm_compute; reflexivity).
  intros Hperm.
  assert (str "Intro" ∈ [str "INTRO"; str "Setup"]) as Hin
    by (rewrite Hperm; left).
  apply elem_of_cons in Hin as [Hin|Hin]; [vm_compute in Hin; discriminate|].
  apply elem_of_cons in Hin as [Hin|Hin]; [vm_compute in Hin; discriminate|].
  by apply elem_of_nil in Hin.
Qed.

(** C2, amended.  Let each of the two pages carry 400 characters of
    prose, more than 100 of them not blank.  Extraction yields exactly 2
    chunks, on pages 1 and 2, whose chapters are "INTRO", in the case of
    the page, and "Setup"; after their ingestion into an empty collection
    the statistics report 2 chunks, 2 unique chapters and the chapters
    "INTRO" and "Setup". *)
Theorem scenario_two_pages (cap : Capabilities) pdf_path prose1 prose2 :
  length prose1 = 400 -> length prose2 = 400 ->
  100 < length (solid prose1) -> 100 < length (solid prose2) ->
  exists chunk1 chunk2,
    extract_chunks_with_metadata pdf_path (scenario_pages prose1 prose2)
    = [ Chunk chunk1 (Meta (Some pdf_path) (Some (str "INTRO")) (Some 1%Z));
        Chunk chunk2 (Meta (Some pdf_path) (Some (str "Setup")) (Some 2%Z)) ]
    /\
    exists w' stats,
      add_documents
        (extract_chunks_with_metadata pdf_path (scenario_pages prose1 prose2))
        (initial_world (cap:=cap)) = (Returned tt, w') /\
      get_collection_stats w' = (Returned stats, w') /\
      total_chunks stats = 2 /\
      unique_chapters stats = 2 /\
      chapters stats = [str "INTRO"; str "Setup"].
Proof.
  intros Hlen1 Hlen2 Hsolid1 Hsolid2.
  assert (forall h prose, length h = 16 -> length prose = 400 ->
            length (h ++ nl ++ prose) < 800) as Hshort.
  { intros h prose Hh Hp. rewrite !length_app, Hh, Hp. simpl. lia. }
  assert (forall h prose, 100 < length (solid prose) ->
            100 < length (solid (h ++ nl ++ prose))) as Hfull.
  { intros h prose Hp. rewrite !solid_app, !length_app. lia. }
  unfold extract_chunks_with_metadata, scenario_pages.
  destruct (extract_single_chunk_page pdf_path
              (str "CHAPTER 1: INTRO" ++ nl ++ prose1)
              [Some (str "Chapter 2: Setup" ++ nl ++ prose2)]
              1 (str "Introduction") [] (str "INTRO")) as [chunk1 ->];
    [by apply Hshort | by apply Hfull | | done |].
  { apply detect_chapter_first_line;
      solve [ repeat constructor | vm_compute; reflexivity ]. }
  destruct (extract_single_chunk_page pdf_path
              (str "Chapter 2: Setup" ++ nl ++ prose2) [] (1 + 1)
              (str "INTRO")
              ([] ++ [Chunk chunk1 (Meta (Some pdf_path) (Some (str "INTRO"))
                                      (Some 1%Z))])
              (str "Setup")) as [chunk2 ->];
    [by apply Hshort | by apply Hfull | | done |].
  { apply detect_chapter_first_line;
      solve [ repeat constructor | vm_compute; reflexivity ]. }
  cbn [extract_pages app]. exists chunk1, chunk2. split; [reflexivity|].
  set (chunks := [Chunk chunk1 _; Chunk chunk2 _]).
  destruct (fresh_ingest_stats chunks (initial_world (cap:=cap)))
    as (w' & Hadd & Ht & Hu & Hc); [done|].
  exists w', (collection_stats (collection w')).
  change (chapter_values chunks) with [str "INTRO"; str "Setup"] in Hu, Hc.
  split_and!; [done|done|done|..].
  - rewrite Hu. vm_compute. reflexivity.
  - rewrite Hc. vm_compute. reflexivity.
Qed.

(** On the two sample proses. *)
Lemma scenario_two_pages_witness :
  length prose_intro = 400 /\ length prose_setup = 400 /\
  100 < length (solid prose_intro) /\ 100 < length (solid prose_setup) /\
  exists chunk1 chunk2,
    scenario_chunks
    = [ Chunk chunk1 (Meta (Some (str "data/manual.pdf")) (Some (str "INTRO"))
                        (Some 1%Z));
        Chunk chunk2 (Meta (Some (str "data/manual.pdf")) (Some (str "Setup"))
                        (Some 2%Z)) ] /\
    exists w' stats,
      add_documents scenario_chunks (initial_world (cap:=sample_cap))
        = (Returned tt, w') /\
      get_collection_stats w' = (Returned stats, w') /\
      total_chunks stats = 2 /\
      unique_chapters stats = 2 /\
      chapters stats = [str "INTRO"; str "Setup"].
Proof.
  assert (100 < length (solid prose_intro)) as H1
    by (apply Nat.ltb_lt; vm_compute; reflexivity).
  assert (100 < length (solid prose_setup)) as H2
    by (apply Nat.ltb_lt; vm_compute; reflexivity).
  split; [vm_compute; reflexivity|].
  split; [vm_compute; reflexivity|].
  split; [exact H1|]. split; [exact H2|].
  exact (scenario_two_pages sample_cap (str "data/manual.pdf")
           prose_intro prose_setup eq_refl eq_refl H1 H2).
Defined.

(** ** The properties on the sample manual *)

(** The chapters that the sample manual knows. *)
Lemma manual_world_chapters :
  known_chapters manual_world = [str "Installation"; str "Troubleshooting"].
Proof. vm_compute. reflexivity. Defined.

(** On the chunks of the scenario, ingested into an empty collection. *)
Lemma stats_after_ingest_witness :
  collection (initial_world (cap:=sample_cap)) = ∅ /\
  exists w' stats,
    add_documents scenario_chunks (initial_world (cap:=sample_cap))
      = (Returned tt, w') /\
    get_collection_stats w' = (Returned stats, w') /\
    total_chunks stats = length scenario_chunks /\
    unique_chapters stats = distinct_count (chapter_values scenario_chunks) /\
    StronglySorted text_le (chapters stats) /\
    NoDup (chapters stats) /\
    (forall c, c ∈ chapters stats <-> c ∈ chapter_values scenario_chunks).
Proof.
  split; [reflexivity|].
  apply (stats_after_ingest sample_cap initial_world scenario_chunks).
  reflexivity.
Defined.



(** On the sample manual, with a query that names both chapters. *)
Lemma least_mentioned_chapter_wins_witness :
  str "Troubleshooting" ∈ known_chapters manual_world /\
  occurs_in (lower (str "Troubleshooting"))
    (lower (str "Is Installation part of Troubleshooting?")) /\
  exists c0,
    _extract_chapter_mention (str "Is Installation part of Troubleshooting?")
      manual_world = (Returned (Some c0), manual_world) /\
    c0 ∈ known_chapters manual_world /\
    occurs_in (lower c0)
      (lower (str "Is Installation part of Troubleshooting?")) /\
    forall c', c' ∈ known_chapters manual_world ->
      occurs_in (lower c')
        (lower (str "Is Installation part of Troubleshooting?")) ->
      text_le c0 c'.
Proof.
  assert (str "Troubleshooting" ∈ known_chapters manual_world) as Hin.
  { rewrite manual_world_chapters. apply elem_of_cons. right.
    apply elem_of_cons. by left. }
  assert (occurs_in (lower (str "Troubleshooting"))
            (lower (str "Is Installation part of Troubleshooting?"))) as Hocc.
  { apply contains_occurs_in. vm_compute. reflexivity. }
  split; [exact Hin|]. split; [exact Hocc|].
  exact (proj2 (least_mentioned_chapter_wins sample_cap manual_world
                  (str "Is Installation part of Troubleshooting?")
                  (str "Troubleshooting") Hin Hocc)).
Defined.

(** * Further properties of the code *)

(** ** More of the vector store *)

Lemma records_of_lookup (cap : Capabilities) chunks i c :
  chunks !! i = Some c ->
  records_of cap chunks !! i
  = Some (chunk_id i, (encode_text cap (chunk_text c), chunk_text c, metadata c)).
Proof.
  intros Hc. unfold records_of.
  assert (i < length chunks) as Hi by (by eapply lookup_lt_Some).
  rewrite !lookup_zip_with.
  rewrite (list_lookup_fmap chunk_id), (proj2 (lookup_seq 0 _ i i)) by done.
  rewrite !list_lookup_fmap, Hc. done.
Qed.

Lemma stored_record_lookup (cap : Capabilities) chunks k
    (v : Embedding cap * text * Metadata) :
  foldl put ∅ (records_of cap chunks) !! k = Some v
  <-> (k, v) ∈ records_of cap chunks.
Proof.
  rewrite <- elem_of_map_to_list. by rewrite records_of_stored.
Qed.

(** X1.  After an ingestion into an empty collection, the record under the
    id of the [i]-th chunk holds the embedding of its text, its text and
    its metadata, and no other id holds a record. *)
Theorem ingested_records_lookup (cap : Capabilities) (w : World cap) chunks :
  collection w = ∅ ->
  (forall i c, chunks !! i = Some c ->
     collection (state_after (add_documents chunks) w) !! chunk_id i
     = Some (encode_text cap (chunk_text c), chunk_text c, metadata c)) /\
  (forall k, (forall i, i < length chunks -> k <> chunk_id i) ->
     collection (state_after (add_documents chunks) w) !! k = None).
Proof.
  intros Hempty.
  assert (collection (state_after (add_documents chunks) w)
          = foldl put ∅ (records_of cap chunks)) as ->.
  { unfold state_after. destruct chunks as [|c0 chunks0].
    - simpl. by rewrite Hempty.
    - rewrite add_documents_writes by done. simpl. by rewrite Hempty. }
  split.
  - intros i c Hc. apply stored_record_lookup.
    eapply list_elem_of_lookup_2. by apply records_of_lookup.
  - intros k Hk.
    destruct (foldl put ∅ (records_of cap chunks) !! k) as [v|] eqn:E; [|done].
    apply stored_record_lookup in E.
    apply list_elem_of_lookup_1 in E as [i Hi]. exfalso.
    assert (i < length chunks) as Hlt.
    { apply lookup_lt_Some in Hi. by rewrite records_of_length in Hi. }
    destruct (lookup_lt_is_Some_2 chunks i Hlt) as [c Hc].
    rewrite (records_of_lookup cap chunks i c Hc) in Hi.
    injection Hi as Hid _. by apply (Hk i Hlt).
Qed.

(** On the two chunks of the sample manual, ingested into an empty
    collection. *)
Lemma ingested_records_lookup_witness :
  collection (initial_world (cap:=sample_cap)) = ∅ /\
  (forall i c, manual_chunks !! i = Some c ->
     collection (state_after (add_documents manual_chunks)
                   (initial_world (cap:=sample_cap))) !! chunk_id i
     = Some (encode_text sample_cap (chunk_text c), chunk_text c,
             metadata c)) /\
  (forall k, (forall i, i < length manual_chunks -> k <> chunk_id i) ->
     collection (state_after (add_documents manual_chunks)
                   (initial_world (cap:=sample_cap))) !! k = None).
Proof.
  split; [reflexivity|].
  apply (ingested_records_lookup sample_cap initial_world manual_chunks).
  reflexivity.
Defined.

Lemma state_after_add_documents (cap : Capabilities) (w : World cap) chunks :
  state_after (add_documents chunks) w
  = match chunks with
    | [] => w
    | _ :: _ =>
        MkWorld (foldl put (collection w) (records_of cap chunks))
          (encoded w ++ [map chunk_text chunks]) (S (S (ticks w)))
          (requests w)
    end.
Proof.
  unfold state_after. destruct chunks as [|c0 chunks0]; [done|].
  by rewrite add_documents_writes.
Qed.

Lemma foldl_put_lookup_other {cap : Capabilities}
    (m : gmap text (Embedding cap * text * Metadata)) rs k :
  k ∉ rs.*1 -> foldl put m rs !! k = m !! k.
Proof.
  revert m. induction rs as [|[k0 v] rs IH]; intros m Hk; [done|].
  cbn [foldl]. cbn [fmap list_fmap] in Hk.
  apply not_elem_of_cons in Hk as [Hne Hk].
  rewrite IH by done. unfold put. cbn [fst snd].
  by rewrite lookup_insert_ne.
Qed.

Lemma foldl_put_dom {cap : Capabilities}
    (m : gmap text (Embedding cap * text * Metadata)) rs :
  dom (foldl put m rs) = dom m ∪ list_to_set rs.*1.
Proof.
  revert m. induction rs as [|[k0 v] rs IH]; intros m.
  - cbn. by rewrite union_empty_r_L.
  - cbn [foldl]. rewrite IH. unfold put. cbn [fst snd].
    rewrite dom_insert_L. cbn [fmap list_fmap list_to_set].
    by rewrite (union_comm_L {[k0]} (dom m)), union_assoc_L.
Qed.

(** X2.  [add_documents] writes under the ids chunk_0 ... chunk_(N-1),
    which are N different ids, and under no other id: the ids of the
    collection after the call are the ids it had before together with
    these, and a record under any other id is after the call what it was
    before.  The records of an earlier, longer ingestion stay in the
    collection. *)
Theorem ingest_writes_its_ids_only (cap : Capabilities) (w : World cap)
    chunks :
  let ids : gset text :=
    list_to_set (map chunk_id (seq 0 (length chunks))) in
  let w' := state_after (add_documents chunks) w in
  size ids = length chunks /\
  dom (collection w') = dom (collection w) ∪ ids /\
  (forall k, k ∉ ids -> collection w' !! k = collection w !! k).
Proof.
  intros ids w'. unfold w', ids. rewrite state_after_add_documents.
  split_and!.
  - rewrite size_list_to_set, length_map, length_seq; [done|].
    apply (NoDup_fmap_2 chunk_id), NoDup_seq.
  - destruct chunks as [|c0 chunks0]; [cbn; by rewrite union_empty_r_L|].
    cbn [collection]. by rewrite foldl_put_dom, records_of_ids.
  - intros k Hk. destruct chunks as [|c0 chunks0]; [done|].
    cbn [collection]. apply foldl_put_lookup_other.
    rewrite records_of_ids. by rewrite elem_of_list_to_set in Hk.
Qed.


(** ** More of the statistics *)

Lemma remove_dups_length_le (l : list text) :
  length (remove_dups l) <= length l.
Proof.
  induction l as [|x l IH]; simpl; [done|].
  destruct (decide_rel elem_of x l); simpl; lia.
Qed.

Lemma sorted_length (l : list text) : length (sorted l) = length l.
Proof. unfold sorted. by rewrite merge_sort_Permutation. Qed.

(** X4.  For every collection the statistics agree with each other: the
    number of unique chapters is the length of the chapter list and is at
    most the number of chunks, the chapter list is in increasing order
    and without repetition, and an empty collection gives 0, 0 and the
    empty list.  Reading the statistics leaves the state as it is. *)
Theorem stats_are_consistent (cap : Capabilities) (w : World cap) :
  exists stats,
    get_collection_stats w = (Returned stats, w) /\
    total_chunks stats = size (collection w) /\
    unique_chapters stats = length (chapters stats) /\
    unique_chapters stats <= total_chunks stats /\
    StronglySorted text_le (chapters stats) /\
    NoDup (chapters stats) /\
    (collection w = ∅ -> stats = MkStats 0 0 []).
Proof.
  exists (collection_stats (collection w)).
  destruct (collection_stats_chapters (collection w)) as [Hu Hc].
  split_and!.
  - done.
  - done.
  - rewrite Hu, Hc, sorted_length. done.
  - rewrite Hu, size_list_to_set_distinct. unfold distinct_count.
    etrans; [apply remove_dups_length_le|].
    rewrite length_map, length_map_to_list. done.
  - apply known_chapters_sorted.
  - rewrite Hc. apply sorted_NoDup, NoDup_elements.
  - intros ->. reflexivity.
Qed.

(** X5.  The chapter list of the statistics holds exactly the chapter
    values of the stored records, where a record without a chapter counts
    under "Unknown". *)
Theorem stats_list_stored_chapters (cap : Capabilities) (w : World cap) c :
  c ∈ known_chapters w <->
  exists k r, collection w !! k = Some r /\
              c = default (str "Unknown") (chapter r.2).
Proof.
  unfold known_chapters.
  destruct (collection_stats_chapters (collection w)) as [_ ->].
  rewrite sorted_elem_of, elem_of_elements, elem_of_list_to_set,
    list_elem_of_In, in_map_iff.
  split.
  - intros [[k r] [<- Hin]]. exists k, r. split; [|done].
    apply elem_of_map_to_list. by apply list_elem_of_In.
  - intros (k & r & Hk & ->). exists (k, r). split; [done|].
    apply list_elem_of_In. by apply elem_of_map_to_list.
Qed.

(** ** More of the search *)

(** X6.  [search] only reads the collection: after the call the collection
    and the requests to the generation service are as before, the
    embedding model has been given the query alone, and the clock has been
    read twice, the retrieval time being the difference of the two
    readings. *)
Theorem search_is_read_only (cap : Capabilities) (w : World cap)
    query chapter_filter top_k :
  exists results,
    search query chapter_filter top_k w
    = (Returned results,
       MkWorld (collection w) (encoded w ++ [[query]]) (S (S (ticks w)))
         (requests w)) /\
    retrieval_time results
    = float_sub cap (time_time cap (S (ticks w))) (time_time cap (ticks w)).
Proof.
  unfold search, bind, now, encode, ret. simpl.
  destruct (documents _); eauto.
Qed.

(** X7.  [search] asks the index with the embedding of the query and with
    the chapter as filter, an empty chapter string counting as no filter;
    it reports the documents of the index, and with them the metadata and
    the distances of the index, except that a result without documents is
    reported with no metadata and no distances. *)
Theorem search_result_shape (cap : Capabilities) (w : World cap)
    query chapter_filter top_k :
  let hits :=
    index_query cap (collection w) (encode_text cap query) top_k
      (where_filter_of chapter_filter) in
  exists results w',
    search query chapter_filter top_k w = (Returned results, w') /\
    s_documents results = documents hits /\
    (documents hits = [] ->
     s_metadatas results = [] /\ s_distances results = []) /\
    (documents hits <> [] ->
     s_metadatas results = metadatas hits /\
     s_distances results = distances hits) /\
    search query (Some []) top_k w = search query None top_k w.
Proof.
  intros hits. unfold search, bind, now, encode, ret. simpl.
  fold (where_filter_of chapter_filter). fold hits.
  destruct (documents hits) as [|d ds] eqn:Hd.
  - eexists _, _. split; [reflexivity|]. simpl. by split_and!.
  - eexists _, _. split; [reflexivity|]. simpl. by split_and!.
Qed.

(** ** More of the answer generation *)

Lemma generate_answer_returns (cap : Capabilities) (w : World cap)
    model_name query context_chunks metas :
  exists a w',
    generate_answer model_name query context_chunks metas w
      = (Returned a, w') /\
    collection w' = collection w /\
    encoded w' = encoded w /\
    requests w'
    = requests w ++ match context_chunks with
                    | [] => []
                    | _ :: _ =>
                        [request_for model_name query context_chunks metas]
                    end /\
    context_used a = context_chunks /\
    answer_model a = model_name.
Proof.
  destruct context_chunks as [|chunk chunks].
  - eexists _, _. split; [apply generate_answer_empty|].
    simpl. by rewrite app_nil_r.
  - unfold generate_answer, request_for, bind, now, try_except,
      chat_completions_create, ret.
    cbn [requests collection encoded ticks].
    destruct (completions_create cap _ _);
      cbn [requests collection encoded ticks]; eexists _, _;
      (split; [reflexivity|]); done.
Qed.

(** X8.  [generate_answer] returns normally whatever the generation
    service does; it leaves the collection and the embedding log alone
    and sends one request, the system and user prompts under the model
    name, when there is context and none when there is not; the answer
    object names the model and the context chunks it was given. *)
Theorem generate_answer_effects (cap : Capabilities) (w : World cap)
    model_name query context_chunks metas :
  exists a w',
    generate_answer model_name query context_chunks metas w
      = (Returned a, w') /\
    collection w' = collection w /\
    encoded w' = encoded w /\
    requests w'
    = requests w ++ match context_chunks with
                    | [] => []
                    | _ :: _ =>
                        [request_for model_name query context_chunks metas]
                    end /\
    context_used a = context_chunks /\
    answer_model a = model_name.
Proof. apply generate_answer_returns. Qed.

(** X9.  When the generation service answers a request for a context that
    is not empty, the answer of [generate_answer] is the content of the
    reply without the blanks around it, and the generation time is the
    difference of the clock readings after and before the call. *)
Theorem generation_success (cap : Capabilities) (w : World cap)
    model_name query chunk chunks metas content :
  completions_create cap (length (requests w))
    (request_for model_name query (chunk :: chunks) metas)
  = Completion content ->
  exists a w',
    generate_answer model_name query (chunk :: chunks) metas w
      = (Returned a, w') /\
    answer a = strip content /\
    generation_time a
    = float_sub cap (time_time cap (S (ticks w))) (time_time cap (ticks w)) /\
    ticks w' = S (S (ticks w)).
Proof.
  intros Hreply.
  unfold generate_answer, request_for, bind, now, try_except,
    chat_completions_create, ret in *.
  cbn [requests collection encoded ticks]. rewrite Hreply.
  cbn [requests collection encoded ticks]. eexists _, _.
  split; [reflexivity|]. done.
Qed.

(** On the sample manual, with a generation service that answers. *)
Lemma generation_success_witness :
  completions_create answering_cap
    (length (requests (initial_world (cap:=answering_cap))))
    (request_for default_model (str "Where does the cable go?")
       [prose_setup] (map metadata manual_chunks))
  = Completion (str "  Plug the cable into a grounded outlet. ") /\
  exists a w',
    generate_answer default_model (str "Where does the cable go?")
      [prose_setup] (map metadata manual_chunks)
      (initial_world (cap:=answering_cap)) = (Returned a, w') /\
    answer a = strip (str "  Plug the cable into a grounded outlet. ") /\
    generation_time a
    = float_sub answering_cap (time_time answering_cap 1)
        (time_time answering_cap 0) /\
    ticks w' = 2.
Proof.
  split; [reflexivity|].
  exact (generation_success answering_cap initial_world default_model
           (str "Where does the cable go?") prose_setup []
           (map metadata manual_chunks)
           (str "  Plug the cable into a grounded outlet. ") eq_refl).
Defined.

(** ** The context of the prompt *)





(** ** More of the chapter inference *)

Lemma rmatch_consistent whole r :
  forall st k res,
    consistent whole st -> rmatch r st k = Some res ->
    exists st', consistent whole st' /\ k st' = Some res.
Proof.
  induction r as [|p|r1 IH1 r2 IH2|r1 IH1 r2 IH2|lo hi r IH|r IH| | |p];
    intros st k res Hst Hres; cbn [rmatch] in Hres.
  - eauto.
  - destruct (ahead st) as [|c s'] eqn:E; [done|].
    destruct (p c); [|done].
    eexists. split; [|exact Hres].
    destruct Hst as [Hwhole Hg]. split; [|exact Hg].
    cbn [passed ahead]. rewrite reverse_cons, <- app_assoc, <- Hwhole, E. done.
  - apply IH1 in Hres as (st1 & H1 & Hres); [|done].
    by apply IH2 in Hres.
  - destruct (rmatch r1 st k) as [res1|] eqn:E1.
    + injection Hres as <-. by eapply IH1.
    + by eapply IH2.
  - revert Hres. generalize (length (ahead st)) as fuel. intros fuel.
    generalize 0 as n. intros n. revert n st Hst.
    induction fuel as [|fuel IHf]; intros n st Hst Hres.
    + destruct (lo <=? n); [eauto|done].
    + destruct (more_allowed n hi); [|destruct (lo <=? n); [eauto|done]].
      match type of Hres with
      | match ?X with _ => _ end = _ => destruct X as [res1|] eqn:E1
      end; [|destruct (lo <=? n); [eauto|done]].
      injection Hres as <-.
      apply IH in E1 as (st1 & H1 & E1); [|done].
      destruct (length (ahead st1) <? length (ahead st)); [|done].
      by eapply IHf.
  - apply IH in Hres as (st1 & H1 & Hres); [|done].
    eexists. split; [|exact Hres].
    destruct Hst as [Hwhole _]. destruct H1 as [Hwhole1 _].
    split; [exact Hwhole1|]. cbn [group1]. intros g [= <-].
    exists (reverse (passed st)),
      (drop (length (ahead st) - length (ahead st1)) (ahead st)).
    by rewrite take_drop.
  - destruct (passed st) as [|c ?]; [eauto|].
    destruct (is_newline c); [eauto|done].
  - destruct (ahead st) as [|c ?]; [eauto|].
    destruct (is_newline c); [eauto|done].
  - destruct (passed st) as [|c ?]; [done|].
    destruct (p c); [eauto|done].
Qed.

Lemma search_from_group r before after m :
  search_from r before after = Some m ->
  occurs_in (group m) (reverse before ++ after).
Proof.
  revert before. induction after as [|c s' IH]; intros before Hm;
    cbn [search_from] in Hm.
  - destruct (rmatch r _ Some) as [res|] eqn:E; [|done].
    injection Hm as ->.
    apply (rmatch_consistent (reverse before ++ [])) in E
      as (st' & [_ Hg] & [= ->]); [|split; [done|done]].
    unfold group. destruct (group1 m) as [g|]; [by apply Hg|].
    exists [], (reverse before ++ []). done.
  - destruct (rmatch r _ Some) as [res|] eqn:E.
    + injection Hm as ->.
      apply (rmatch_consistent (reverse before ++ c :: s')) in E
        as (st' & [_ Hg] & [= ->]); [|split; [done|done]].
      unfold group. destruct (group1 m) as [g|]; [by apply Hg|].
      exists [], (reverse before ++ c :: s'). done.
    + apply IH in Hm. rewrite reverse_cons, <- app_assoc in Hm. done.
Qed.

(** The group of a match of [re.search] is a piece of the text. *)
Lemma re_search_group r s m :
  re_search r s = Some m -> occurs_in (group m) s.
Proof. intros H. exact (search_from_group r [] s m H). Qed.

Lemma occurs_in_trans a b c : occurs_in a b -> occurs_in b c -> occurs_in a c.
Proof.
  intros (x1 & y1 & ->) (x2 & y2 & ->).
  exists (x2 ++ x1), (y1 ++ y2). by rewrite <- !app_assoc.
Qed.

Lemma strip_occurs_in s : occurs_in (strip s) s.
Proof.
  unfold strip.
  destruct (lstrip_decompose s) as [ws1 [E1 _]].
  destruct (rstrip_decompose (lstrip s)) as [ws2 [E2 _]].
  exists ws1, ws2. by rewrite <- E2.
Qed.

Lemma lower_occurs_in p s : occurs_in p s -> occurs_in (lower p) (lower s).
Proof.
  intros (x & y & ->). exists (lower x), (lower y).
  unfold lower. by rewrite !map_app.
Qed.

Lemma lower_char_idemp c : lower_char (lower_char c) = lower_char c.
Proof. destruct c as [[] [] [] [] [] [] [] []]; reflexivity. Qed.

Lemma lower_upper_char c : lower_char (upper_char c) = lower_char c.
Proof. destruct c as [[] [] [] [] [] [] [] []]; reflexivity. Qed.

Lemma lower_title_from b s : lower (title_from b s) = lower s.
Proof.
  revert b. induction s as [|c s IH]; intros b; [done|].
  simpl. rewrite IH. f_equal.
  destruct b; [apply lower_char_idemp | apply lower_upper_char].
Qed.

Lemma same_chapter_found available potential c :
  same_chapter available potential = Some c ->
  c ∈ available /\ lower c = lower potential.
Proof.
  induction available as [|x rest IH]; simpl; [done|].
  unfold text_eqb. case_bool_decide as Hx.
  - intros [= <-]. split; [left|done].
  - intros H. destruct (IH H). split; [by right|done].
Qed.

Lemma pattern_chapter_found ps query available c :
  pattern_chapter ps query available = Some c ->
  c ∈ available /\ occurs_in (lower c) (lower query).
Proof.
  induction ps as [|p ps IH]; simpl; [done|].
  destruct (re_search p query) as [m|] eqn:Hm; [|done].
  destruct (same_chapter _ _) as [c'|] eqn:Hc; [|done].
  intros [= <-]. apply same_chapter_found in Hc as [Hin Hlow].
  split; [done|]. rewrite Hlow. unfold title. rewrite lower_title_from.
  apply lower_occurs_in. eapply occurs_in_trans; [apply strip_occurs_in|].
  by apply (re_search_group p).
Qed.

(** The patterns find no chapter that the substring test has not found. *)
Lemma pattern_step_adds_nothing ps query available :
  mentioned_chapter available (lower query) = None ->
  pattern_chapter ps query available = None.
Proof.
  intros Hnone.
  destruct (pattern_chapter ps query available) as [c|] eqn:E; [|done].
  apply pattern_chapter_found in E as [Hin Hocc]. exfalso.
  pose proof (mentioned_chapter_first available (lower query)) as H.
  rewrite Hnone, Forall_forall in H. apply H in Hin.
  apply not_contains_occurs_in in Hin. done.
Qed.

Lemma mentioned_chapter_member available q c :
  mentioned_chapter available q = Some c -> c ∈ available.
Proof.
  intros H. pose proof (mentioned_chapter_first available q) as Hf.
  rewrite H in Hf. destruct Hf as (before & after & -> & _).
  apply elem_of_app. right. left.
Qed.

(** X11.  On strings of characters below 256, the pattern step of chapter
    inference never yields a filter: a phrase that a pattern captures is a
    piece of the query, so a chapter equal to it up to case has already
    been found by the substring test.  Inference is the substring test
    alone, and two queries that differ only in case get the same
    filter. *)
Theorem inference_is_the_substring_test (cap : Capabilities) (w : World cap)
    query :
  (mentioned_chapter (known_chapters w) (lower query) = None ->
   pattern_chapter mention_patterns query (known_chapters w) = None) /\
  _extract_chapter_mention query w
  = (Returned (mentioned_chapter (known_chapters w) (lower query)), w) /\
  (forall query', lower query' = lower query ->
     _extract_chapter_mention query' w = _extract_chapter_mention query w).
Proof.
  assert (forall q, _extract_chapter_mention q w
            = (Returned (mentioned_chapter (known_chapters w) (lower q)), w))
    as Hsub.
  { intros q. rewrite _extract_chapter_mention_returns.
    destruct (mentioned_chapter _ _) eqn:E; [done|].
    by rewrite pattern_step_adds_nothing. }
  split_and!.
  - apply pattern_step_adds_nothing.
  - apply Hsub.
  - intros query' Hlow. by rewrite !Hsub, Hlow.
Qed.

(** X12.  A filter that chapter inference returns is always one of the
    chapters of the statistics, in the spelling of the statistics; on an
    empty collection no query gets a filter; inference leaves the state
    as it is. *)
Theorem inferred_filter_is_known (cap : Capabilities) (w : World cap) query :
  exists chapter_filter,
    _extract_chapter_mention query w = (Returned chapter_filter, w) /\
    (forall c, chapter_filter = Some c -> c ∈ known_chapters w) /\
    (collection w = ∅ -> chapter_filter = None).
Proof.
  eexists. split; [apply _extract_chapter_mention_returns|]. split.
  - intros c. destruct (mentioned_chapter _ _) as [c0|] eqn:E.
    + intros [= <-]. by eapply mentioned_chapter_member.
    + intros H. by apply pattern_chapter_found in H as [H _].
  - intros Hempty. unfold known_chapters. rewrite Hempty.
    change (chapters (collection_stats ∅)) with (@nil text).
    cbn [mentioned_chapter]. apply pattern_chapter_none.
    intros p m c _ _ Hc. by apply elem_of_nil in Hc.
Qed.

(** X13.  [answer_question] is the three steps one after the other: the
    filter of chapter inference goes to [search] with [top_k] 3, the
    documents and metadata of the search go to [generate_answer], and the
    result carries the query, the answer, the two times and their sum,
    the metadata of the search as sources and the filter.  With an
    embedding model and an index that answer, it returns normally
    whatever the generation service does, leaves the collection as it is
    and gives the embedding model the query alone. *)
Theorem answer_question_composes (cap : Capabilities) (w : World cap) query :
  exists chapter_filter results w1 a w2,
    _extract_chapter_mention query w = (Returned chapter_filter, w) /\
    search query chapter_filter 3 w = (Returned results, w1) /\
    generate_answer default_model query (s_documents results)
      (s_metadatas results) w1 = (Returned a, w2) /\
    answer_question query w
    = (Returned
         (MkQueryAnswer query (answer a) (retrieval_time results)
            (generation_time a)
            (float_add cap (retrieval_time results) (generation_time a))
            (s_metadatas results) chapter_filter), w2) /\
    collection w2 = collection w /\
    encoded w2 = encoded w ++ [[query]].
Proof.
  pose proof (_extract_chapter_mention_returns query w) as Hx.
  set (chapter_filter := match mentioned_chapter _ _ with
                         | Some c => Some c | None => _ end) in Hx.
  destruct (search_returns query chapter_filter 3 w) as [results Hs].
  set (w1 := MkWorld _ _ _ _) in Hs.
  destruct (generate_answer_returns cap w1 default_model query
              (s_documents results) (s_metadatas results))
    as (a & w2 & Ha & Hcoll & Henc & _).
  exists chapter_filter, results, w1, a, w2.
  split_and!; [done|done|done| |done|done].
  unfold answer_question, bind. by rewrite Hx, Hs, Ha.
Qed.

(** ** The words of the chunks *)

Lemma split_acc_blank_prefix cur ws s :
  blank_text ws -> ws <> [] ->
  split_acc cur (ws ++ s) = split_acc cur [] ++ split_acc [] s.
Proof.
  intros Hws Hne. destruct Hws as [|c ws Hc Hws]; [done|].
  change ((c :: ws) ++ s) with ([] ++ c :: (ws ++ s)).
  rewrite (split_acc_app_space cur [] c (ws ++ s)) by done.
  f_equal. clear Hne. induction Hws as [|x ws Hx _ IH]; [done|].
  simpl. by rewrite Hx.
Qed.

Lemma split_acc_blank_cons cur c s :
  isspace c = true ->
  split_acc cur (c :: s) = split_acc cur [] ++ split_acc [] s.
Proof. intros Hc. exact (split_acc_app_space cur [] c s Hc). Qed.

Lemma blank_take_0 (s : text) : blank_text (take 0 s).
Proof. constructor. Qed.

Lemma sub_scan_words r repl :
  eats_blanks r -> blank_text repl -> repl <> [] ->
  forall after skip before cur,
    blank_text (take skip after) -> skip = 0 \/ cur = [] ->
    split_acc cur (sub_scan r repl skip before after) = split_acc cur after.
Proof.
  intros Hr Hrepl Hne.
  induction after as [|c s' IH]; intros skip before cur Hskip Hcur; [done|].
  assert (forall cur0, split_acc cur0 (c :: sub_scan r repl 0 (c :: before) s')
                       = split_acc cur0 (c :: s')) as Hcopy.
  { intros cur0. simpl. destruct (isspace c).
    - destruct cur0; rewrite (IH 0) by (apply blank_take_0 || by left); done.
    - apply IH; [apply blank_take_0 | by left]. }
  cbn [sub_scan]. destruct skip as [|n].
  - destruct (rmatch r _ Some) as [res|] eqn:Hres; [|apply Hcopy].
    apply Hr in Hres as [ws [Hws E]]. cbn [ahead] in E.
    rewrite E at 1. rewrite length_app.
    replace (length ws + length (ahead res) - length (ahead res))
      with (length ws) by lia.
    destruct ws as [|x ws]; cbn [length]; [apply Hcopy|].
    simpl in E. injection E as <- E.
    apply Forall_cons in Hws as [Hc Hws].
    rewrite split_acc_blank_prefix, split_acc_blank_cons by done.
    f_equal. apply IH; [|by right]. rewrite E. by rewrite take_app_length.
  - destruct Hcur as [Hz| ->]; [done|].
    simpl in Hskip. apply Forall_cons in Hskip as [Hc Hskip].
    rewrite (split_acc_blank_cons [] c s') by done. simpl.
    apply IH; [done | by right].
Qed.

Lemma re_sub_blanks_words t : split_ws (re_sub blanks (str " ") t) = split_ws t.
Proof.
  unfold split_ws, re_sub. apply sub_scan_words.
  - apply rmatch_blanks.
  - by repeat constructor.
  - done.
  - constructor.
  - by left.
Qed.

Lemma split_scan_words r :
  eats_blanks r ->
  forall after skip before piece,
    blank_text (take skip after) -> skip = 0 \/ piece = [] ->
    concat (map split_ws (split_scan r skip before after piece))
    = split_ws (reverse piece ++ after).
Proof.
  intros Hr.
  induction after as [|c s' IH]; intros skip before piece Hskip Hpiece.
  - simpl. by rewrite !app_nil_r.
  - assert (concat (map split_ws
                      (split_scan r 0 (c :: before) s' (c :: piece)))
            = split_ws (reverse piece ++ c :: s')) as Hcopy.
    { rewrite IH by (apply blank_take_0 || by left).
      by rewrite reverse_cons, <- app_assoc. }
    cbn [split_scan]. destruct skip as [|n].
    + destruct (rmatch r _ Some) as [res|] eqn:Hres; [|apply Hcopy].
      apply Hr in Hres as [ws [Hws E]]. cbn [ahead] in E.
      rewrite E at 1. rewrite length_app.
      replace (length ws + length (ahead res) - length (ahead res))
        with (length ws) by lia.
      destruct ws as [|x ws]; cbn [length]; [apply Hcopy|].
      simpl in E. injection E as <- E.
      apply Forall_cons in Hws as [Hc Hws].
      simpl. rewrite IH; [|rewrite E; by rewrite take_app_length | by right].
      unfold split_ws. by rewrite split_acc_app_space.
    + destruct Hpiece as [Hz| ->]; [done|].
      simpl in Hskip. apply Forall_cons in Hskip as [Hc Hskip].
      rewrite IH by (done || by right). simpl.
      unfold split_ws. rewrite (split_acc_blank_cons [] c s') by done. done.
Qed.

Lemma re_split_words t :
  concat (map split_ws (re_split sentence_end t)) = split_ws t.
Proof.
  unfold re_split. rewrite split_scan_words; [done| | |by left].
  - apply rmatch_sentence_end.
  - constructor.
Qed.

Lemma fresh_words_snoc previous chunks c :
  fresh_words previous (chunks ++ [c])
  = fresh_words previous chunks
    ++ drop (overlap_of (match last chunks with
                         | Some x => Some x
                         | None => previous
                         end)) (split_ws c).
Proof.
  revert previous. induction chunks as [|x chunks IH]; intros previous.
  - simpl. by rewrite app_nil_r.
  - simpl. rewrite IH, <- app_assoc. do 3 f_equal.
    rewrite last_cons. by destruct (last chunks).
Qed.

Lemma split_ws_app_space a b :
  split_ws (a ++ str " " ++ b) = split_ws a ++ split_ws b.
Proof. unfold split_ws. by apply split_acc_app_space. Qed.

Lemma split_loop_words size sentences chunks current :
  overlap_of (last chunks) <= length (split_ws current) ->
  overlap_of (last (split_loop size sentences chunks current).1)
    <= length (split_ws (split_loop size sentences chunks current).2) /\
  fresh_words None (split_loop size sentences chunks current).1
    ++ drop (overlap_of (last (split_loop size sentences chunks current).1))
         (split_ws (split_loop size sentences chunks current).2)
  = (fresh_words None chunks
       ++ drop (overlap_of (last chunks)) (split_ws current))
    ++ concat (map split_ws sentences).
Proof.
  revert chunks current.
  induction sentences as [|sentence rest IH]; intros chunks current Hk.
  - simpl. by rewrite app_nil_r.
  - cbn [split_loop]. destruct (_ && _).
    + set (words := split_ws current).
      set (overlap_text := if 20 <? length words
                           then join (str " ") (last_n 20 words) else []).
      assert (overlap_of (Some (strip current)) <= length words /\
              split_ws overlap_text
              = take (overlap_of (Some (strip current)))
                  (split_ws overlap_text) /\
              length (split_ws overlap_text)
              = overlap_of (Some (strip current))) as (Hle & _ & Hov).
      { unfold overlap_of, overlap_text. rewrite split_ws_strip. fold words.
        destruct (20 <? length words) eqn:E.
        - apply Nat.ltb_lt in E.
          change (str " ") with [" "%char].
          rewrite split_ws_join by
            (unfold last_n; apply Forall_drop, split_ws_words).
          rewrite last_n_length by lia. split_and!; [lia| |done].
          rewrite take_ge; [done|]. rewrite last_n_length; lia.
        - split_and!; [lia|done|done]. }
      destruct (IH (chunks ++ [strip current])
                  (overlap_text ++ str " " ++ sentence)) as [H1 H2].
      { rewrite last_snoc, split_ws_app_space, length_app. lia. }
      split; [exact H1|]. rewrite H2.
      rewrite last_snoc, fresh_words_snoc, split_ws_app_space.
      rewrite drop_app_length' by done.
      rewrite split_ws_strip. fold words.
      assert (match last chunks with Some x => Some x | None => None end
              = last chunks) as -> by (by destruct (last chunks)).
      simpl. by rewrite <- !app_assoc.
    + destruct (IH chunks (current ++ str " " ++ sentence)) as [H1 H2].
      { rewrite split_ws_app_space, length_app. lia. }
      split; [exact H1|]. rewrite H2, split_ws_app_space.
      rewrite drop_app_le by done. simpl. by rewrite <- !app_assoc.
Qed.

Lemma _split_text_words t size overlap :
  fresh_words None (_split_text t size overlap) = split_ws t.
Proof.
  unfold _split_text.
  set (sentences := re_split sentence_end
                      (strip (re_sub blanks (str " ") t))).
  destruct (split_loop_words size sentences [] []) as [Hk Hw]; [simpl; lia|].
  assert (concat (map split_ws sentences) = split_ws t) as Hs.
  { unfold sentences.
    by rewrite re_split_words, split_ws_strip, re_sub_blanks_words. }
  rewrite Hs in Hw. simpl in Hw.
  destruct (split_loop size sentences [] []) as [chunks current].
  simpl in *. destruct (strip current) as [|x c] eqn:E; simpl.
  - assert (split_ws current = []) as Hc
      by (by rewrite <- split_ws_strip, E).
    rewrite Hc, drop_nil, app_nil_r in Hw. done.
  - rewrite fresh_words_snoc. rewrite <- E, split_ws_strip.
    assert (match last chunks with Some x => Some x | None => None end
            = last chunks) as -> by (by destruct (last chunks)).
    done.
Qed.

(** X14.  Splitting keeps the words of the page: the words of the first
    chunk, followed by the words of every later chunk without the 20
    words (or none) that it repeats from the chunk before it, are the
    words of the page text in order, whatever the chunk size. *)
Theorem chunks_keep_the_words t chunk_size overlap :
  fresh_words None (_split_text t chunk_size overlap) = split_ws t.
Proof. apply _split_text_words. Qed.

Lemma trimmed_blank_empty s : trimmed s -> solid s = [] -> s = [].
Proof.
  intros [Hhead _] Hs. destruct s as [|c s]; [done|].
  specialize (Hhead c eq_refl). simpl in Hs. by rewrite Hhead in Hs.
Qed.

(** X15.  A text without any character that is not blank, the empty text
    among them, gives no chunk; a text shorter than the chunk size with
    some character that is not blank gives exactly one chunk, and its
    words are the words of the text. *)
Theorem short_text_chunks t chunk_size overlap :
  (solid t = [] -> _split_text t chunk_size overlap = []) /\
  (length t < chunk_size -> solid t <> [] ->
   exists c, _split_text t chunk_size overlap = [c] /\
             split_ws c = split_ws t).
Proof.
  split.
  - intros Hblank. unfold _split_text.
    assert (strip (re_sub blanks (str " ") t) = []) as ->.
    { apply trimmed_blank_empty; [apply strip_trimmed|].
      rewrite solid_strip. rewrite <- Hblank. apply sub_scan_solid.
      - apply rmatch_blanks.
      - by repeat constructor.
      - constructor. }
    reflexivity.
  - intros Hlen Hsolid.
    destruct (_split_text_single t chunk_size overlap Hlen Hsolid)
      as (c & Hc & _).
    exists c. split; [done|].
    pose proof (_split_text_words t chunk_size overlap) as Hw.
    rewrite Hc in Hw. simpl in Hw. by rewrite app_nil_r in Hw.
Qed.

Lemma extract_pages_app pdf_path pages page_num current acc :
  extract_pages pdf_path pages page_num current acc =
  acc ++ extract_pages pdf_path pages page_num current [].
Proof.
  revert page_num current acc.
  induction pages as [|p rest IH]; intros page_num current acc.
  - cbn. by rewrite app_nil_r.
  - cbn [extract_pages]. destruct p as [t|]; [|apply IH].
    destruct (negb (truthy t) || (length (strip t) <? 50)); [apply IH|].
    rewrite IH. rewrite (IH _ _ ([] ++ _)). by rewrite app_assoc.
Qed.

Lemma chapter_after_cons current p pages :
  chapter_after current (p :: pages) =
  chapter_after (default current (heading_of_page p)) pages.
Proof.
  unfold chapter_after. change (p :: pages) with ([p] ++ pages).
  rewrite omap_app, last_app.
  destruct (last (omap heading_of_page pages)); [done|].
  cbn. by destruct (heading_of_page p).
Qed.

Lemma from_page_shift pdf_path p pages first current i c :
  from_page pdf_path pages (first + 1) (default current (heading_of_page p))
    i c ->
  from_page pdf_path (p :: pages) first current (S i) c.
Proof.
  intros (t & Hl & Hr & Ht & Hm). exists t. split_and!; try done.
  rewrite Hm. change (take (S (S i)) (p :: pages)) with (p :: take (S i) pages).
  rewrite chapter_after_cons. do 2 f_equal. lia.
Qed.

Lemma extract_pages_from_page pdf_path pages first current :
  Forall (fun c => exists i, from_page pdf_path pages first current i c)
    (extract_pages pdf_path pages first current []).
Proof.
  revert first current.
  induction pages as [|p rest IH]; intros first current; [constructor|].
  assert (Hshift : forall cur',
    cur' = default current (heading_of_page p) ->
    Forall (fun c => exists i,
              from_page pdf_path (p :: rest) first current i c)
      (extract_pages pdf_path rest (first + 1) cur' [])).
  { intros cur' ->. eapply Forall_impl; [apply IH|].
    intros c [i Hc]. exists (S i). by apply from_page_shift. }
  cbn [extract_pages]. destruct p as [t|]; [|by apply Hshift].
  destruct (negb (truthy t) || (length (strip t) <? 50)) eqn:Hskip.
  { apply Hshift. unfold heading_of_page, readable. by rewrite Hskip. }
  rewrite extract_pages_app. apply Forall_app. split.
  - cbn [app]. unfold page_documents. apply Forall_forall.
    intros c Hc. apply list_elem_of_fmap in Hc as (x & -> & Hx).
    apply list_elem_of_filter in Hx as [_ Hx].
    exists 0, t. split_and!; try done.
    + unfold readable. by rewrite Hskip.
    + cbn [metadata take]. rewrite chapter_after_cons.
      unfold chapter_after. cbn [omap list_omap last default].
      unfold heading_of_page, readable. rewrite Hskip. cbn [negb].
      do 2 f_equal; [|f_equal; lia].
      f_equal. destruct (_detect_chapter t) as [name|]; [|done].
      by destruct (truthy name).
  - apply Hshift. unfold heading_of_page, readable. rewrite Hskip.
    cbn [negb]. destruct (_detect_chapter t) as [name|]; [|done].
    by destruct (truthy name).
Qed.

Lemma from_page_page_of pdf_path pages first current i c :
  from_page pdf_path pages first current i c ->
  page_of c = (first + Z.of_nat i)%Z.
Proof. intros (t & _ & _ & _ & Hm). unfold page_of. by rewrite Hm. Qed.

Lemma extract_pages_page_order pdf_path pages first current :
  StronglySorted page_order
    (extract_pages pdf_path pages first current []).
Proof.
  revert first current.
  induction pages as [|p rest IH]; intros first current; [constructor|].
  cbn [extract_pages]. destruct p as [t|]; [|apply IH].
  destruct (negb (truthy t) || (length (strip t) <? 50)); [apply IH|].
  rewrite extract_pages_app. cbn [app].
  apply StronglySorted_app_2; [| | apply IH].
  - intros c1 c2 H1 H2. unfold page_documents in H1.
    apply list_elem_of_fmap in H1 as (y & -> & _).
    pose proof (extract_pages_from_page pdf_path rest (first + 1)
      (match _detect_chapter t with
       | Some name => if truthy name then name else current
       | None => current end)) as HF.
    rewrite Forall_forall in HF. apply HF in H2 as [i Hi].
    apply from_page_page_of in Hi.
    unfold page_order. rewrite Hi. unfold page_of. cbn. lia.
  - unfold page_documents.
    induction (filter _ _) as [|x l IHl]; [constructor|].
    cbn [map]. constructor; [done|].
    apply Forall_forall. intros c Hc.
    apply list_elem_of_fmap in Hc as (y & -> & _).
    unfold page_order, page_of. cbn. lia.
Qed.

(** X16.  [extract_chunks_with_metadata]: every chunk it returns was cut
    by [_split_text] from a readable page of the document, names the
    PDF as its source and that page (counted from 1) as its page, and
    carries as chapter the last heading detected on a readable page up
    to and including its own, ["Introduction"] when there is none; the
    chunks are returned in the order of their pages. *)
Theorem chunks_come_from_their_pages pdf_path pages :
  Forall (fun c => exists i t,
            pages !! i = Some (Some t) /\ 50 <= length (strip t) /\
            chunk_text c ∈ _split_text t 800 100 /\
            source (metadata c) = Some pdf_path /\
            page (metadata c) = Some (Z.of_nat (S i)) /\
            chapter (metadata c) =
              Some (chapter_after (str "Introduction")
                      (take (S i) pages)))
    (extract_chunks_with_metadata pdf_path pages) /\
  StronglySorted page_order (extract_chunks_with_metadata pdf_path pages).
Proof.
  split; [|apply extract_pages_page_order].
  eapply Forall_impl; [apply extract_pages_from_page|].
  intros c (i & t & Hl & Hr & Ht & Hm). exists i, t.
  rewrite Hm. split_and!; try done.
  - unfold readable in Hr. apply negb_true_iff, orb_false_iff in Hr as [_ Hr].
    apply Nat.ltb_ge in Hr. exact Hr.
  - cbn. do 2 f_equal. lia.
Qed.

(** X17.  [extract_chunks_with_metadata]: a document whose pages all
    have no text, or less than 50 characters of it once trimmed,
    gives no chunk at all. *)
Theorem unreadable_document_gives_nothing pdf_path pages :
  Forall (fun p => readable p = false) pages ->
  extract_chunks_with_metadata pdf_path pages = [].
Proof.
  intros Hp.
  pose proof (extract_pages_from_page pdf_path pages 1 (str "Introduction"))
    as HF.
  unfold extract_chunks_with_metadata.
  destruct (extract_pages _ _ _ _ _) as [|c l]; [done|].
  apply Forall_cons in HF as [(i & t & Hl & Hr & _) _].
  rewrite Forall_forall in Hp.
  apply list_elem_of_lookup_2 in Hl. apply Hp in Hl. congruence.
Qed.

Lemma unreadable_document_gives_nothing_witness :
  Forall (fun p => readable p = false)
    [None; Some []; Some (str "   Page 3   ")] /\
  extract_chunks_with_metadata (str "manual.pdf")
    [None; Some []; Some (str "   Page 3   ")] = [].
Proof.
  assert (H : Forall (fun p => readable p = false)
                [None; Some []; Some (str "   Page 3   ")]).
  { repeat constructor. }
  split; [exact H|].
  exact (unreadable_document_gives_nothing (str "manual.pdf") _ H).
Defined.

(** ** More of the heading detection *)

Lemma rmatch_run r :
  forall st k res,
    rmatch r st k = Some res ->
    exists st', run r st st' /\ k st' = Some res.
Proof.
  induction r as [|p|r1 IH1 r2 IH2|r1 IH1 r2 IH2|lo hi r IH|r IH| | |p];
    intros st k res Hres; cbn [rmatch] in Hres.
  - eauto using run.
  - destruct (ahead st) as [|c s'] eqn:E; [done|].
    destruct (p c) eqn:Hp; [|done].
    eexists. split; [|exact Hres]. by constructor.
  - apply IH1 in Hres as (st1 & H1 & Hres).
    apply IH2 in Hres as (st2 & H2 & Hres). eauto using run.
  - destruct (rmatch r1 st k) as [res1|] eqn:E1.
    + injection Hres as <-. apply IH1 in E1 as (st1 & H1 & E1).
      eauto using run.
    + apply IH2 in Hres as (st2 & H2 & Hres). eauto using run.
  - revert Hres. generalize (length (ahead st)) as fuel. intros fuel.
    assert (forall n st0,
              (if lo <=? n then k st0 else None) = Some res ->
              exists st', run (Rep (lo - n) hi r) st0 st' /\ k st' = Some res)
      as Hstop.
    { intros n st0 H. destruct (lo <=? n) eqn:Hn; [|done].
      apply Nat.leb_le in Hn. exists st0. split; [|done].
      replace (lo - n) with 0 by lia. constructor. }
    intros Hres.
    enough (exists st', run (Rep (lo - 0) hi r) st st' /\ k st' = Some res)
      as H by (by rewrite Nat.sub_0_r in H).
    revert Hres. generalize 0 as n. intros n. revert n st.
    induction fuel as [|fuel IHf]; intros n st Hres.
    + by apply Hstop.
    + destruct (more_allowed n hi); [|by apply Hstop].
      match type of Hres with
      | match ?X with _ => _ end = _ => destruct X as [res1|] eqn:E1
      end; [|by apply Hstop].
      injection Hres as <-.
      apply IH in E1 as (st1 & H1 & E1).
      destruct (length (ahead st1) <? length (ahead st)) eqn:Hlen; [|done].
      apply Nat.ltb_lt in Hlen.
      apply IHf in E1 as (st2 & H2 & E1).
      exists st2. split; [|done].
      eapply run_Rep_step; [exact H1|exact Hlen|].
      replace (Nat.pred (lo - n)) with (lo - S n) by lia. exact H2.
  - apply IH in Hres as (st1 & H1 & Hres). eauto using run.
  - exists st. split.
    + constructor. destruct (passed st) as [|c ?]; [done|].
      by destruct (is_newline c).
    + destruct (passed st) as [|c ?]; [done|].
      by destruct (is_newline c).
  - exists st. split.
    + constructor. destruct (ahead st) as [|c ?]; [done|].
      by destruct (is_newline c).
    + destruct (ahead st) as [|c ?]; [done|].
      by destruct (is_newline c).
  - destruct (passed st) as [|c rest] eqn:E; [done|].
    destruct (p c) eqn:Hp; [|done].
    exists st. split; [|done]. by econstructor.
Qed.

(** A match passes a piece of the text ahead. *)
Lemma run_passes r st st' :
  run r st st' -> exists mid, ahead st = mid ++ ahead st'.
Proof.
  induction 1 as [st|p c s' st E Hp|r1 r2 st st1 st2 _ [m1 E1] _ [m2 E2]
                 |r1 r2 st st' _ IH|r1 r2 st st' _ IH|hi r st
                 |lo hi r st st1 st2 _ [m1 E1] _ _ [m2 E2]
                 |r st st' _ [m E]|st _|st _|p c rest st _ _].
  - by exists [].
  - exists [c]. by rewrite E.
  - exists (m1 ++ m2). by rewrite E1, E2, app_assoc.
  - done.
  - done.
  - by exists [].
  - exists (m1 ++ m2). by rewrite E1, E2, app_assoc.
  - by exists m.
  - by exists [].
  - by exists [].
  - by exists [].
Qed.

Lemma run_Seq_inv r1 r2 st st2 :
  run (Seq r1 r2) st st2 -> exists st1, run r1 st st1 /\ run r2 st1 st2.
Proof. inversion 1; subst. eauto. Qed.

Lemma run_end st st' : run (Seq Eol Eps) st st' ->
  st' = st /\ match ahead st with [] => True | c :: _ => is_newline c = true end.
Proof.
  intros H. apply run_Seq_inv in H as (st1 & H1 & H2).
  inversion H1; subst. inversion H2; subst. done.
Qed.

Lemma run_Group_inv r st st2 :
  run (Group r) st st2 ->
  exists mid, ahead st = mid ++ ahead st2 /\ group1 st2 = Some mid /\
              exists st', run r st st' /\ ahead st' = ahead st2.
Proof.
  inversion 1 as [| | | | | | |r0 st0 st' Hr| | |]; subst.
  destruct (run_passes _ _ _ Hr) as [mid E]. exists mid. cbn.
  split; [done|]. split; [|eauto].
  rewrite E, length_app.
  replace (length mid + length (ahead st') - length (ahead st'))
    with (length mid) by lia.
  by rewrite take_app_length.
Qed.

(** The name that a numbered heading pattern captures on a line reaches
    to the end of the line and is not empty. *)
Lemma numbered_heading_group kw line m :
  one_line line ->
  re_match (numbered_heading kw) line = Some m ->
  exists before g, line = before ++ g /\ g <> [] /\ group1 m = Some g.
Proof.
  intros Hline Hm. unfold re_match in Hm.
  apply rmatch_run in Hm as (st' & Hrun & [= ->]).
  unfold numbered_heading in Hrun. cbn [seq_of foldr] in Hrun.
  apply run_Seq_inv in Hrun as (s1 & H1 & Hrun).
  apply run_Seq_inv in Hrun as (s2 & H2 & Hrun).
  apply run_Seq_inv in Hrun as (s3 & H3 & Hrun).
  apply run_Seq_inv in Hrun as (s4 & H4 & Hrun).
  apply run_Seq_inv in Hrun as (s5 & H5 & Hrun).
  apply run_Seq_inv in Hrun as (s6 & H6 & Hrun).
  apply run_end in Hrun as [-> Hend].
  apply run_passes in H1 as [m1 E1]. apply run_passes in H2 as [m2 E2].
  apply run_passes in H3 as [m3 E3]. apply run_passes in H4 as [m4 E4].
  apply run_passes in H5 as [m5 E5].
  apply run_Group_inv in H6 as (g & E6 & Hg & st6 & Hplus & Hsame).
  cbn [ahead] in E1.
  assert (line = (m1 ++ m2 ++ m3 ++ m4 ++ m5) ++ g ++ ahead s6) as Hwhole.
  { rewrite E1, E2, E3, E4, E5, E6. by rewrite <- !app_assoc. }
  assert (ahead s6 = []) as Hnil.
  { destruct (ahead s6) as [|c rest]; [done|]. exfalso.
    rewrite Hwhole in Hline. unfold one_line in Hline.
    rewrite !Forall_app in Hline. destruct Hline as (_ & _ & Hrest).
    apply Forall_cons in Hrest as [Hc _]. congruence. }
  exists (m1 ++ m2 ++ m3 ++ m4 ++ m5), g. split_and!.
  - by rewrite Hwhole, Hnil, app_nil_r.
  - intros ->. unfold plus in Hplus.
    inversion Hplus as [| | | | | |lo hi r st0 st1 st2 Hr Hlt Hrest| | | |];
      subst.
    apply run_passes in Hrest as [mr Er].
    rewrite E6, <- Hsame, Er in Hlt. cbn [app] in Hlt.
    rewrite length_app in Hlt. lia.
  - done.
Qed.

(** The name that a pattern captures from a capital letter on starts
    with a character that is not blank. *)
Lemma capital_group p r st st' :
  (forall c, p c = true -> isspace c = false) ->
  run (Group (Seq (Chr p) r)) st st' ->
  exists c g, group1 st' = Some (c :: g) /\ isspace c = false.
Proof.
  intros Hp H.
  apply run_Group_inv in H as (mid & E & Hg & st1 & Hrun & Hsame).
  apply run_Seq_inv in Hrun as (st2 & Hc & Hr).
  inversion Hc as [|p0 c s' st0 Ea Hpc| | | | | | | | |]; subst.
  apply run_passes in Hr as [m2 E2]. cbn [ahead] in E2.
  assert (mid = c :: m2) as ->.
  { apply (app_inv_tail (ahead st')). rewrite <- E, Ea, E2, Hsame. done. }
  exists c, m2. split; [done|]. by apply Hp.
Qed.

Lemma in_range_capital_not_blank c :
  in_range "A" "Z" c = true -> isspace c = false.
Proof.
  unfold in_range, isspace. intros H.
  apply andb_true_iff in H as [H1 H2].
  apply N.leb_le in H1, H2. change (ord "A") with 65%N in H1.
  change (ord "Z") with 90%N in H2.
  repeat match goal with
         | |- context [(?a <=? ?b)%N] =>
             destruct (N.leb_spec a b); try lia
         | |- context [(?a =? ?b)%N] =>
             destruct (N.eqb_spec a b); try lia
         end; done.
Qed.

Lemma solid_cons_not_blank c g : isspace c = false -> solid (c :: g) <> [].
Proof. intros Hc. unfold solid. cbn. by rewrite Hc. Qed.

Lemma solid_last s c :
  last s = Some c -> isspace c = false -> solid s <> [].
Proof.
  intros Hl Hc Hs.
  assert (c ∈ solid s) as Hin; [|rewrite Hs in Hin; by apply elem_of_nil in Hin].
  unfold solid. apply list_elem_of_In, filter_In. split.
  - apply list_elem_of_In. destruct s as [|x s] using rev_ind; [done|].
    rewrite last_snoc in Hl. injection Hl as ->.
    apply list_elem_of_In, in_app_iff. right. by left.
  - by rewrite Hc.
Qed.

Lemma occurs_in_length p s : occurs_in p s -> length p <= length s.
Proof. intros (b & a & ->). rewrite !length_app. lia. Qed.

Lemma re_match_group_length r s m :
  re_match r s = Some m -> length (group m) <= length s.
Proof.
  intros Hm. unfold re_match in Hm.
  apply (rmatch_consistent s) in Hm as (st' & [_ Hg] & [= ->]); [|done].
  unfold group. destruct (group1 m) as [g|]; [|simpl; lia].
  apply occurs_in_length. by apply Hg.
Qed.

(** The name that a pattern of [_detect_chapter] captures on a trimmed
    line has a character that is not blank. *)
Lemma first_pattern_group line name :
  one_line line -> trimmed line ->
  first_pattern patterns line = Some name ->
  exists g, name = re_sub blanks (str " ") (strip g) /\
            solid g <> [] /\ length g <= length line.
Proof.
  intros Hline [_ Hlast] Hname.
  assert (forall kw m, re_match (numbered_heading kw) line = Some m ->
            solid (group m) <> []) as Hnum.
  { intros kw m Hm.
    destruct (numbered_heading_group kw line m Hline Hm)
      as (before & g & E & Hne & Hg).
    unfold group. rewrite Hg. cbn [default].
    destruct (last g) as [c|] eqn:Hc; [|by apply last_None in Hc].
    apply (solid_last g c Hc). apply Hlast.
    rewrite E, last_app, Hc. done. }
  assert (forall r m, re_match r line = Some m ->
            solid (group m) <> [] ->
            exists g, re_sub blanks (str " ") (strip (group m))
                      = re_sub blanks (str " ") (strip g) /\
                      solid g <> [] /\ length g <= length line) as Hok.
  { intros r m Hm Hs. exists (group m). split_and!; [done|done|].
    by eapply re_match_group_length. }
  unfold patterns in Hname. cbn [first_pattern] in Hname.
  destruct (re_match chapter_pattern line) as [m|] eqn:E1.
  { injection Hname as <-. eapply Hok; [done|]. by eapply Hnum. }
  destruct (re_match (numbered_heading "CHAPTER") line) as [m|] eqn:E2.
  { injection Hname as <-. eapply Hok; [done|]. by eapply Hnum. }
  destruct (re_match (numbered_heading "Section") line) as [m|] eqn:E3.
  { injection Hname as <-. eapply Hok; [done|]. by eapply Hnum. }
  destruct (re_match (numbered_heading "SECTION") line) as [m|] eqn:E4.
  { injection Hname as <-. eapply Hok; [done|]. by eapply Hnum. }
  match type of Hname with
  | match re_match ?r line with _ => _ end = _ =>
      destruct (re_match r line) as [m|] eqn:E5
  end.
  { injection Hname as <-. eapply Hok; [done|].
    unfold re_match in E5. apply rmatch_run in E5 as (st' & Hrun & [= ->]).
    cbn [seq_of foldr] in Hrun.
    apply run_Seq_inv in Hrun as (s1 & _ & Hrun).
    apply run_Seq_inv in Hrun as (s2 & _ & Hrun).
    apply run_Seq_inv in Hrun as (s3 & _ & Hrun).
    apply run_Seq_inv in Hrun as (s4 & _ & Hrun).
    apply run_Seq_inv in Hrun as (s5 & Hg & Hrun).
    apply run_end in Hrun as [-> _].
    apply capital_group in Hg as (c & g & Hg & Hc);
      [|apply in_range_capital_not_blank].
    unfold group. rewrite Hg. by apply solid_cons_not_blank. }
  destruct (re_match capitals_pattern line) as [m|] eqn:E6; [|done].
  injection Hname as <-. eapply Hok; [done|].
  unfold re_match in E6. apply rmatch_run in E6 as (st' & Hrun & [= ->]).
  unfold capitals_pattern in Hrun. cbn [seq_of foldr] in Hrun.
  apply run_Seq_inv in Hrun as (s1 & _ & Hrun).
  apply run_Seq_inv in Hrun as (s2 & Hg & Hrun).
  apply run_end in Hrun as [-> _].
  apply capital_group in Hg as (c & g & Hg & Hc);
    [|apply in_range_capital_not_blank].
  unfold group. rewrite Hg. by apply solid_cons_not_blank.
Qed.

Lemma blanks_at_blank before c s' :
  isspace c = true ->
  exists res, rmatch blanks (MState before (c :: s') None) Some = Some res /\
              length (ahead res) <= length s'.
Proof.
  intros Hc. unfold blanks, plus. cbn [rmatch ahead length].
  cbn [more_allowed Nat.leb]. cbn [rmatch ahead passed group1]. rewrite Hc.
  assert ((length s' <? S (length s')) = true) as ->
    by (apply Nat.ltb_lt; lia).
  match goal with
  | |- context [?F (length s') 1 ?st] =>
      assert (forall fuel n st0,
                exists res, F fuel (S n) st0 = Some res /\
                            length (ahead res) <= length (ahead st0)) as Hit
  end.
  { induction fuel as [|fuel IH]; intros n st0;
      [exists st0; split; [reflexivity|lia]|].
    cbn [ahead].
    destruct (ahead st0) as [|c0 s0] eqn:E;
      [exists st0; split; [reflexivity|rewrite E; simpl; lia]|].
    destruct (isspace c0);
      [|exists st0; split; [reflexivity|rewrite E; simpl; lia]].
    destruct (length s0 <? length (c0 :: s0));
      [|exists st0; split; [reflexivity|rewrite E; simpl; lia]].
    destruct (IH (S n) (MState (c0 :: passed st0) s0 (group1 st0)))
      as (res & -> & Hlen).
    exists res. split; [done|]. cbn [ahead] in Hlen. simpl. lia. }
  destruct (Hit (length s') 0 (MState (c :: before) s' None))
    as (res & -> & Hlen).
  by exists res.
Qed.

(** After [re.sub(r'\s+', ' ', s)] every blank character is a space. *)
Lemma sub_scan_blanks_spaces after : forall skip before,
  Forall (fun c => isspace c = true -> c = " "%char)
    (sub_scan blanks (str " ") skip before after).
Proof.
  induction after as [|c s' IH]; intros skip before; [constructor|].
  cbn [sub_scan]. destruct skip as [|n]; [|apply IH].
  destruct (isspace c) eqn:Hc.
  - destruct (blanks_at_blank before c s' Hc) as (res & -> & Hlen).
    cbn [length].
    replace (S (length s') - length (ahead res))
      with (S (length s' - length (ahead res))) by lia.
    constructor; [done|apply IH].
  - assert (forall l, Forall (fun c => isspace c = true -> c = " "%char) l ->
              Forall (fun c => isspace c = true -> c = " "%char) (c :: l))
      as Hkeep.
    { intros l Hl. constructor; [congruence|done]. }
    destruct (rmatch blanks _ Some) as [res|].
    + destruct (_ - _) as [|n]; [apply Hkeep, IH|].
      constructor; [done|apply IH].
    + apply Hkeep, IH.
Qed.

Lemma split_on_one_line cur s :
  one_line cur -> Forall one_line (split_on "010" cur s).
Proof.
  revert cur. induction s as [|c s IH]; intros cur Hcur; simpl.
  - constructor; [|constructor]. by apply Forall_reverse.
  - destruct (is_char "010" c) eqn:Hc.
    + constructor; [by apply Forall_reverse|]. apply IH. constructor.
    + apply IH. by constructor.
Qed.

Lemma strip_one_line s : one_line s -> one_line (strip s).
Proof.
  unfold strip, one_line.
  destruct (lstrip_decompose s) as [ws1 [E1 _]].
  destruct (rstrip_decompose (lstrip s)) as [ws2 [E2 _]].
  intros H. rewrite E1, E2 in H. rewrite !Forall_app in H. by destruct H as [_ [H _]].
Qed.

Lemma first_heading_elem lines name :
  first_heading lines = Some name ->
  exists line, line ∈ lines /\ heading_of_line line = Some name.
Proof.
  induction lines as [|l lines IH]; [done|]. cbn [first_heading].
  destruct (heading_of_line l) as [n|] eqn:E.
  - intros [= <-]. exists l. split; [by left|done].
  - intros H. destruct (IH H) as (line & Hin & Hl).
    exists line. split; [by right|done].
Qed.

(** X18.  A heading that [_detect_chapter] returns is never empty: it has a
    character that is not blank, at most 100 characters, and every blank
    character in it is a space, so it has no line break and no tab.  The
    test [if detected_chapter] of the page loop therefore fails for
    [None] only. *)
Theorem detected_heading_is_a_name t name :
  _detect_chapter t = Some name ->
  solid name <> [] /\ truthy name = true /\ length name <= 100 /\
  Forall (fun c => isspace c = true -> c = " "%char) name.
Proof.
  intros H. unfold _detect_chapter in H.
  apply first_heading_elem in H as (line0 & Hin & Hh).
  assert (one_line line0) as Hline0.
  { apply subseteq_take in Hin.
    pose proof (split_on_one_line [] t) as HF.
    rewrite Forall_forall in HF. apply HF; [constructor|done]. }
  unfold heading_of_line in Hh.
  destruct ((100 <? length (strip line0)) || (length (strip line0) <? 3))
    eqn:Hlen; [done|].
  apply orb_false_iff in Hlen as [Hhi _]. apply Nat.ltb_ge in Hhi.
  apply first_pattern_group in Hh as (g & -> & Hg & Hglen);
    [|by apply strip_one_line|apply strip_trimmed].
  assert (solid (re_sub blanks (str " ") (strip g)) <> []) as Hsolid.
  { unfold re_sub. rewrite sub_scan_solid, solid_strip; [done| | |constructor].
    - apply rmatch_blanks.
    - by repeat constructor. }
  split_and!.
  - exact Hsolid.
  - destruct (re_sub _ _ _); [done|done].
  - etrans; [apply sub_scan_length|]. etrans; [apply strip_length|]. lia.
  - apply sub_scan_blanks_spaces.
Qed.

(** On a page that starts with the heading of chapter 2. *)
Lemma detected_heading_is_a_name_witness :
  _detect_chapter chapter_first_page = Some (str "Setup") /\
  solid (str "Setup") <> [] /\ truthy (str "Setup") = true /\
  length (str "Setup") <= 100 /\
  Forall (fun c => isspace c = true -> c = " "%char) (str "Setup").
Proof.
  assert (H : _detect_chapter chapter_first_page = Some (str "Setup"))
    by (vm_compute; reflexivity).
  split; [exact H|].
  exact (detected_heading_is_a_name chapter_first_page (str "Setup") H).
Defined.
